(** * git-wt: a verification development

    The command-line entry point (the [run] action with [resolveInputs],
    [resolveRepoName], [ensureBareRepository], [createWorktree]) and the
    full-screen form of [src/tui.ts] ([collectInputsWithTui]) are embedded
    as executable Rocq definitions. Of the earlier entry point, which
    prompts with inquirer, only the extraction of the repository name and
    the test that decides the retry are modelled.

    Conventions of the embedding:
    - a JavaScript string is a [string] of 8-bit characters read as ASCII:
      [toLowerCase] folds 'A'..'Z', [trim] strips the ASCII white space
      (tab, line feed, vertical tab, form feed, carriage return, space);
    - a thrown value is a [JsValue]; a computation that may throw returns
      [JsValue + A];
    - the file system, the git backend (simple-git) and node's [path]
      module are collaborators of the program: they are parameters of the
      model, and every call the program makes to them is recorded, in
      order, in a trace;
    - the spinner, the banner and the colours are presentation and are not
      modelled, apart from the message handed to [spinner.fail];
    - commander's reading of the command line is not modelled: the action
      is taken with the arguments it receives; creating a simple-git
      handle ([simpleGit(path)]) is taken not to throw. *)

From Stdlib Require Import String Ascii List Bool ZArith Lia.
Import ListNotations.
Open Scope string_scope.

(** ** JavaScript strings *)

Module JsString.

(** [c] is an ASCII upper-case letter. *)
Definition is_upper (c : ascii) : bool :=
  let n := nat_of_ascii c in (65 <=? n)%nat && (n <=? 90)%nat.

Definition lower_char (c : ascii) : ascii :=
  if is_upper c then ascii_of_nat (nat_of_ascii c + 32) else c.

(** [String.prototype.toLowerCase]. *)
Fixpoint toLowerCase (s : string) : string :=
  match s with
  | EmptyString => EmptyString
  | String c s' => String (lower_char c) (toLowerCase s')
  end.

(** [s.startsWith(p)]. *)
Fixpoint startsWith (p s : string) : bool :=
  match p with
  | EmptyString => true
  | String a p' =>
      match s with
      | EmptyString => false
      | String b s' => Ascii.eqb a b && startsWith p' s'
      end
  end.

(** [s.includes(p)]: [p] occurs in [s] at some position. *)
Fixpoint includes (s p : string) : bool :=
  startsWith p s ||
  match s with
  | EmptyString => false
  | String _ s' => includes s' p
  end.

(** White space removed by [trim]. *)
Definition is_ws (c : ascii) : bool :=
  let n := nat_of_ascii c in
  ((9 <=? n)%nat && (n <=? 13)%nat) || (n =? 32)%nat.

Fixpoint trimStart (s : string) : string :=
  match s with
  | EmptyString => EmptyString
  | String c s' => if is_ws c then trimStart s' else s
  end.

Definition is_empty (s : string) : bool :=
  match s with EmptyString => true | _ => false end.

Fixpoint trimEnd (s : string) : string :=
  match s with
  | EmptyString => EmptyString
  | String c s' =>
      let r := trimEnd s' in
      if is_ws c && is_empty r then EmptyString else String c r
  end.

(** [String.prototype.trim]. *)
Definition trim (s : string) : string := trimEnd (trimStart s).

(** [c] occurs in [s]. *)
Fixpoint has_char (c : ascii) (s : string) : bool :=
  match s with
  | EmptyString => false
  | String a s' => Ascii.eqb a c || has_char c s'
  end.

(** The text contains the phrase up to the case of its letters: some
    factor of the text folds to the folded phrase. *)
Definition contains_ci (text phrase : string) : Prop :=
  exists pre mid post,
    text = pre ++ mid ++ post /\ toLowerCase mid = toLowerCase phrase.

(** [s] ends with [suffix] after a non-empty stem. *)
Definition has_stem_before (suffix s : string) : Prop :=
  exists stem, stem <> "" /\ s = stem ++ suffix.

(** [s] does not begin with white space. *)
Definition clean_start (s : string) : Prop :=
  match s with
  | EmptyString => True
  | String c _ => is_ws c = false
  end.

End JsString.

Import JsString.

(** ** Thrown values *)

(** A value caught by [catch (error: unknown)]: an [Error] object with its
    [message], or any other value with its [String(...)] rendering. *)
Inductive JsValue : Type :=
| JsError (message : string)
| JsOther (rendering : string).

Definition toErrorMessage (error : JsValue) : string :=
  match error with
  | JsError message => message
  | JsOther rendering => rendering
  end.

(** ** The command-line program *)

Module Cli.

Definition MISSING_BRANCH_PATTERNS : list string :=
  ["invalid reference"; "not a valid object name"].

(** [Array.prototype.some]. *)
Definition some {A} (f : A -> bool) (l : list A) : bool := existsb f l.

Definition isMissingBranchError (error : JsValue) : bool :=
  let message := toLowerCase (toErrorMessage error) in
  some (fun pattern => includes message pattern) MISSING_BRANCH_PATTERNS.

(** *** [resolveRepoName]: the regular expression [/\/([^\/]+?)(\.git)?$/]

    The matcher follows the backtracking order of the expression. After
    the slash, the lazy group [([^\/]+?)] takes one character that is not
    a slash and then extends one character at a time, only when the rest
    of the pattern fails; the optional group [(\.git)?] is tried with
    [.git] first and empty second; [$] demands the end of the input.
    [String.prototype.match] tries the start positions from left to
    right. The result is the first capture group. *)

Definition slash : ascii := "/"%char.

(** [(\.git)?$] at [rest]. *)
Definition git_suffix_then_end (rest : string) : bool :=
  String.eqb rest ".git" || is_empty rest.

(** The lazy group after it has taken [taken], facing [rest]. *)
Fixpoint lazy_group (taken : string) (rest : string) : option string :=
  if git_suffix_then_end rest then Some taken
  else
    match rest with
    | EmptyString => None
    | String c rest' =>
        if Ascii.eqb c slash then None
        else lazy_group (taken ++ String c EmptyString) rest'
    end.

(** The expression anchored at a position whose character is [/]. *)
Definition match_here (after_slash : string) : option string :=
  match after_slash with
  | EmptyString => None
  | String c rest =>
      if Ascii.eqb c slash then None
      else lazy_group (String c EmptyString) rest
  end.

(** [url.match(...)?.[1]]: the first position that matches, left to right. *)
Fixpoint match_repo_name (url : string) : option string :=
  match url with
  | EmptyString => None
  | String c rest =>
      if Ascii.eqb c slash then
        match match_here rest with
        | Some group1 => Some group1
        | None => match_repo_name rest
        end
      else match_repo_name rest
  end.

Definition resolveRepoName (url : string) : JsValue + string :=
  match match_repo_name url with
  | Some repoName =>
      if is_empty repoName
      then inl (JsError "Invalid Git URL. Could not extract repository name.")
      else inr repoName
  | None => inl (JsError "Invalid Git URL. Could not extract repository name.")
  end.

(** *** [resolveInputs] *)

Record Inputs : Type := mkInputs { url : string; branch : string; dir : string }.

(** [arg?.trim()]. *)
Definition optional_trim (arg : option string) : option string :=
  match arg with
  | None => None
  | Some s => Some (trim s)
  end.

(** [!x] for [x : string | undefined]. *)
Definition falsy (x : option string) : bool :=
  match x with
  | None => true
  | Some s => is_empty s
  end.

Definition resolveInputs (process_cwd : string)
    (urlArg branchArg : option string) (dirArg : string) : JsValue + Inputs :=
  let url := optional_trim urlArg in
  let branch := optional_trim branchArg in
  let dir := if is_empty (trim dirArg) then process_cwd else trim dirArg in
  if falsy url || falsy branch
  then inl (JsError "Usage: git-wt <repo-url> <branch-name> [options]")
  else
    match url, branch with
    | Some url, Some branch => inr (mkInputs url branch dir)
    | _, _ => inl (JsError "Usage: git-wt <repo-url> <branch-name> [options]")
    end.

(** An argument that is missing, or empty once trimmed. *)
Definition blank (arg : option string) : Prop :=
  match arg with
  | None => True
  | Some s => trim s = ""
  end.

(** *** Collaborators and effects *)

(** A call to the file system or to the git backend, as the program
    issues it. *)
Inductive Op : Type :=
| EnsureDir (path : string)
| ExistsSync (path : string)
| GitFetch (cwd remote : string)
| GitClone (repo dest : string) (options : list string)
| GitRaw (cwd : string) (args : list string).

(** The two calls of the Repository Provisioner. *)
Definition is_provision (op : Op) : bool :=
  match op with
  | GitFetch _ _ | GitClone _ _ _ => true
  | _ => false
  end.

(** The [worktree] commands, sent through [raw]. *)
Definition is_raw (op : Op) : bool :=
  match op with GitRaw _ _ => true | _ => false end.

(** What the program relies on: [fs-extra], [simple-git], node's [path]
    and [process.cwd()]. A call returns the value it rejects with, if any,
    and the world it leaves. *)
Record Backend (World : Type) : Type := mkBackend {
  fs_existsSync : string -> World -> bool;
  fs_ensureDir : string -> World -> option JsValue * World;
  git_fetch : string -> string -> World -> option JsValue * World;
  git_clone : string -> string -> list string -> World -> option JsValue * World;
  git_raw : string -> list string -> World -> option JsValue * World;
  path_join : string -> string -> string;
  path_resolve : string -> string;
  process_cwd : string
}.

Arguments fs_existsSync {World}.
Arguments fs_ensureDir {World}.
Arguments git_fetch {World}.
Arguments git_clone {World}.
Arguments git_raw {World}.
Arguments path_join {World}.
Arguments path_resolve {World}.
Arguments process_cwd {World}.

(** The world together with the calls issued so far, oldest first. *)
Record State (World : Type) : Type := mkState {
  world : World;
  trace : list Op
}.

Arguments mkState {World}.
Arguments world {World}.
Arguments trace {World}.

(** The outcome of one invocation: [process.exitCode] (0 when it is never
    set), the message given to [spinner.fail], and the worktree path and
    branch of the closing summary. *)
Record RunResult : Type := mkRunResult {
  exitCode : Z;
  failMessage : option string;
  summary : option (string * string)
}.

(** A call that rejects throws; one that does not returns. *)
Definition outcome (r : option JsValue) : JsValue + unit :=
  match r with
  | Some e => inl e
  | None => inr tt
  end.

Section Program.

Context {World : Type}.
Variable B : Backend World.

(** An asynchronous computation, run to completion: it returns or throws,
    and the changes it made to the world stay in either case. *)
Definition M (A : Type) : Type := State World -> (JsValue + A) * State World.

Definition ret {A} (a : A) : M A := fun st => (inr a, st).

Definition throw {A} (e : JsValue) : M A := fun st => (inl e, st).

Definition bind {A C} (m : M A) (k : A -> M C) : M C :=
  fun st =>
    match m st with
    | (inr a, st') => k a st'
    | (inl e, st') => (inl e, st')
    end.

Definition try_catch {A} (m : M A) (handler : JsValue -> M A) : M A :=
  fun st =>
    match m st with
    | (inr a, st') => (inr a, st')
    | (inl e, st') => handler e st'
    end.

Definition lift {A} (r : JsValue + A) : M A :=
  match r with
  | inl e => throw e
  | inr a => ret a
  end.

(** The state after a call to [fs.existsSync]. *)
Definition seen (path : string) (st : State World) : State World :=
  mkState (world st) (trace st ++ [ExistsSync path]).

(** The state after a call [op] whose effect on the world is [f]. *)
Definition called (op : Op) (f : World -> option JsValue * World)
    (st : State World) : State World :=
  mkState (snd (f (world st))) (trace st ++ [op]).

(** Issue [op], whose effect on the world is [f]. *)
Definition call (op : Op) (f : World -> option JsValue * World) : M unit :=
  fun st => (outcome (fst (f (world st))), called op f st).

Definition existsSync (path : string) : M bool :=
  fun st => (inr (fs_existsSync B path (world st)), seen path st).

Definition ensureDir (path : string) : M unit :=
  call (EnsureDir path) (fs_ensureDir B path).

Definition fetch (cwd remote : string) : M unit :=
  call (GitFetch cwd remote) (git_fetch B cwd remote).

Definition clone (repo dest : string) (options : list string) : M unit :=
  call (GitClone repo dest options) (git_clone B repo dest options).

Definition raw (cwd : string) (args : list string) : M unit :=
  call (GitRaw cwd args) (git_raw B cwd args).

Notation "x <- m ;; k" := (bind m (fun x => k))
  (at level 61, m at next level, right associativity).
Notation "m ;;; k" := (bind m (fun _ => k))
  (at level 61, right associativity).

(** The call [f] leaves what [view] observes of the world as it was. *)
Definition preserves {V} (view : World -> V)
    (f : World -> option JsValue * World) : Prop :=
  forall w, view (snd (f w)) = view w.

(** *** [ensureBareRepository] *)

Definition ensureBareRepository (url bareRepoPath : string) : M unit :=
  found <- existsSync bareRepoPath ;;
  if found then fetch bareRepoPath "origin"
  else clone url bareRepoPath ["--bare"; "--progress"].

(** *** [createWorktree] *)

Definition createWorktree (bareRepoPath worktreePath branch : string) : M unit :=
  found <- existsSync worktreePath ;;
  if found
  then throw (JsError ("Worktree path " ++ worktreePath ++ " already exists."))
  else
    try_catch
      (raw bareRepoPath ["worktree"; "add"; worktreePath; branch])
      (fun error =>
         if negb (isMissingBranchError error) then throw error
         else raw bareRepoPath ["worktree"; "add"; "-b"; branch; worktreePath]).

(** *** The action of [run] *)

(** The three paths computed by the action. *)
Record Layout : Type := mkLayout {
  repoDir : string;
  bareRepoPath : string;
  worktreePath : string
}.

Definition layout (dir repoName branch : string) : Layout :=
  let baseDir := path_resolve B dir in
  let repoDir := path_join B baseDir repoName in
  let bareRepoPath := path_join B repoDir ".bare" in
  let worktreePath := path_join B repoDir branch in
  mkLayout repoDir bareRepoPath worktreePath.

(** The [try] block: it returns the worktree path and the branch shown in
    the summary box. *)
Definition action_body (urlArg branchArg : option string) (dirOption : string)
    : M (string * string) :=
  inputs <- lift (resolveInputs (process_cwd B) urlArg branchArg dirOption) ;;
  repoName <- lift (resolveRepoName (url inputs)) ;;
  let l := layout (dir inputs) repoName (branch inputs) in
  ensureDir (repoDir l) ;;;
  ensureBareRepository (url inputs) (bareRepoPath l) ;;;
  createWorktree (bareRepoPath l) (worktreePath l) (branch inputs) ;;;
  ret (worktreePath l, branch inputs).

(** The action with its [catch]: the message goes to [spinner.fail] and
    [process.exitCode] becomes 1. *)
Definition action (urlArg branchArg : option string) (dirOption : string)
    (st : State World) : RunResult * State World :=
  match action_body urlArg branchArg dirOption st with
  | (inr done, st') => (mkRunResult 0 None (Some done), st')
  | (inl error, st') => (mkRunResult 1 (Some (toErrorMessage error)) None, st')
  end.

End Program.

End Cli.

(** ** A reference backend

    A small executable world used to run the program on concrete inputs:
    the world is the list of the paths that exist; [ensureDir] and a
    successful clone or worktree-add create their target; a fetch changes
    nothing; [worktree add <path> <branch>] succeeds for the branches the
    repository knows and otherwise rejects with [missing branch]. *)

Module Reference.

Import Cli.

Definition World : Type := list string.

Definition exists_in (path : string) (w : World) : bool :=
  existsb (String.eqb path) w.

Definition create (path : string) (w : World) : World :=
  if exists_in path w then w else path :: w.

Definition worktree_add (known : list string) (missing : string -> JsValue)
    (args : list string) (w : World) : option JsValue * World :=
  match args with
  | [a; b; path; branch] =>
      if String.eqb a "worktree" && String.eqb b "add" then
        if existsb (String.eqb branch) known then (None, create path w)
        else (Some (missing branch), w)
      else (Some (JsError "git: unknown command"), w)
  | [a; b; c; branch; path] =>
      if String.eqb a "worktree" && String.eqb b "add" && String.eqb c "-b"
      then (None, create path w)
      else (Some (JsError "git: unknown command"), w)
  | _ => (Some (JsError "git: unknown command"), w)
  end.

Definition backend (known : list string) (missing : string -> JsValue)
    : Backend World :=
  mkBackend World
    exists_in
    (fun path w => (None, create path w))
    (fun _ _ w => (None, w))
    (fun _ dest _ w => (None, create dest w))
    (fun _ args w => worktree_add known missing args w)
    (fun a b => a ++ "/" ++ b)
    (fun p => p)
    "/work".

(** git's message for a branch it does not know. *)
Definition invalid_reference (branch : string) : JsValue :=
  JsError ("fatal: invalid reference: " ++ branch).

(** git's message for a branch that another worktree holds. *)
Definition already_checked_out (branch : string) : JsValue :=
  JsError ("fatal: '" ++ branch ++ "' is already checked out").

Definition start (w : World) : State World := mkState w [].

End Reference.

(** ** The full-screen form ([src/tui.ts]) *)

Module Tui.

Record WorkspaceInputs : Type := mkWorkspaceInputs {
  url : string;
  branch : string;
  dir : string
}.

(** [Partial<WorkspaceInputs>]. *)
Record PartialInputs : Type := mkPartialInputs {
  initial_url : option string;
  initial_branch : option string;
  initial_dir : option string
}.

Inductive Widget : Type :=
| urlInput | branchInput | dirInput | submitButton | cancelButton.

Definition focusables : list Widget :=
  [urlInput; branchInput; dirInput; submitButton; cancelButton].

Definition is_textbox (w : Widget) : bool :=
  match w with
  | urlInput | branchInput | dirInput => true
  | _ => false
  end.

(** The state of the promise returned by [collectInputsWithTui]. *)
Inductive Promise : Type :=
| Pending
| Fulfilled (value : WorkspaceInputs)
| Rejected (reason : JsValue).

(** What the form does to the screen and to the promise, in order. *)
Inductive Effect : Type :=
| Render
| FocusOn (w : Widget)
| SetContent (content : string)
| Destroy
| Resolve (value : WorkspaceInputs)
| Reject (reason : JsValue).

Definition is_settlement (e : Effect) : bool :=
  match e with
  | Resolve _ | Reject _ => true
  | _ => false
  end.

Record Form : Type := mkForm {
  urlValue : string;
  branchValue : string;
  dirValue : string;
  message : string;
  focusIndex : Z;
  settled : bool;
  promise : Promise;
  effects : list Effect
}.

Definition emit (e : Effect) (f : Form) : Form :=
  mkForm (urlValue f) (branchValue f) (dirValue f) (message f)
    (focusIndex f) (settled f) (promise f) (effects f ++ [e]).

Definition set_focusIndex (i : Z) (f : Form) : Form :=
  mkForm (urlValue f) (branchValue f) (dirValue f) (message f)
    i (settled f) (promise f) (effects f).

Definition set_message (m : string) (f : Form) : Form :=
  mkForm (urlValue f) (branchValue f) (dirValue f) m
    (focusIndex f) (settled f) (promise f) (effects f).

Definition set_settled (b : bool) (f : Form) : Form :=
  mkForm (urlValue f) (branchValue f) (dirValue f) (message f)
    (focusIndex f) b (promise f) (effects f).

Definition set_promise (p : Promise) (f : Form) : Form :=
  mkForm (urlValue f) (branchValue f) (dirValue f) (message f)
    (focusIndex f) (settled f) p (effects f).

Definition set_value (w : Widget) (v : string) (f : Form) : Form :=
  match w with
  | urlInput =>
      mkForm v (branchValue f) (dirValue f) (message f)
        (focusIndex f) (settled f) (promise f) (effects f)
  | branchInput =>
      mkForm (urlValue f) v (dirValue f) (message f)
        (focusIndex f) (settled f) (promise f) (effects f)
  | dirInput =>
      mkForm (urlValue f) (branchValue f) v (message f)
        (focusIndex f) (settled f) (promise f) (effects f)
  | _ => f
  end.

(** [resolve] and [reject] of a promise act on a pending promise only. *)
Definition resolve (value : WorkspaceInputs) (f : Form) : Form :=
  let f := emit (Resolve value) f in
  match promise f with
  | Pending => set_promise (Fulfilled value) f
  | _ => f
  end.

Definition reject (reason : JsValue) (f : Form) : Form :=
  let f := emit (Reject reason) f in
  match promise f with
  | Pending => set_promise (Rejected reason) f
  | _ => f
  end.

(** [target.focus()]; a textbox answers with the render of its [focus]
    listener (see [createLabeledInput]). *)
Definition focus (w : Widget) (f : Form) : Form :=
  let f := emit (FocusOn w) f in
  if is_textbox w then emit Render f else f.

(** [focusables[i]] for a JavaScript number [i]. *)
Definition at_index (i : Z) : option Widget :=
  if (i <? 0)%Z then None else nth_error focusables (Z.to_nat i).

Definition focusAt (index : Z) (f : Form) : Form :=
  let normalized := Z.rem (index + Z.of_nat (length focusables))
                          (Z.of_nat (length focusables)) in
  match at_index normalized with
  | None => f
  | Some target => emit Render (focus target (set_focusIndex normalized f))
  end.

Definition setError (content : string) (f : Form) : Form :=
  emit Render
    (emit (SetContent ("{red-fg}" ++ content ++ "{/red-fg}"))
       (set_message ("{red-fg}" ++ content ++ "{/red-fg}") f)).

Definition cleanup (f : Form) : Form := emit Destroy f.

Definition settle (handler : Form -> Form) (f : Form) : Form :=
  if settled f then f
  else handler (cleanup (set_settled true f)).

Definition cancel (f : Form) : Form :=
  settle (reject (JsError "Cancelled by user.")) f.

Definition submit (f : Form) : Form :=
  let url := trim (urlValue f) in
  let branch := trim (branchValue f) in
  let dir := trim (dirValue f) in
  if is_empty url then focusAt 0 (setError "Repository URL is required." f)
  else if is_empty branch then focusAt 1 (setError "Branch is required." f)
  else if is_empty dir then focusAt 2 (setError "Base directory is required." f)
  else settle (resolve (mkWorkspaceInputs url branch dir)) f.

(** The listeners registered on the screen, the textboxes, the buttons and
    the form, and the user's edits of a textbox. An event is a call of a
    listener, not a key press: which presses reach the [screen.key]
    listeners is decided by blessed (see [Keyboard] below). *)
Inductive Key : Type := KeyTab | KeyShiftTab | KeyEscape | KeyQ | KeyCtrlC | KeyCtrlS.

Inductive Event : Type :=
| ScreenKey (k : Key)
| EnterIn (w : Widget)
| Press (w : Widget)
| FormSubmit
| Edit (w : Widget) (value : string).

Definition handle (e : Event) (f : Form) : Form :=
  match e with
  | ScreenKey KeyTab => focusAt (focusIndex f + 1) f
  | ScreenKey KeyShiftTab => focusAt (focusIndex f - 1) f
  | ScreenKey KeyEscape | ScreenKey KeyQ | ScreenKey KeyCtrlC => cancel f
  | ScreenKey KeyCtrlS => submit f
  | EnterIn urlInput => focusAt 1 f
  | EnterIn branchInput => focusAt 2 f
  | EnterIn dirInput => submit f
  | EnterIn _ => f
  | Press submitButton => submit f
  | Press cancelButton => cancel f
  | Press _ => f
  | FormSubmit => submit f
  | Edit w value => set_value w value f
  end.

(** [value?.trim() ?? '']. *)
Definition toInitialValue (value : option string) : string :=
  match value with
  | None => ""
  | Some v => trim v
  end.

(** [initial.dir || process.cwd()]. *)
Definition or_cwd (value : option string) (cwd : string) : option string :=
  match value with
  | None => Some cwd
  | Some v => if is_empty v then Some cwd else Some v
  end.

(** The form as [collectInputsWithTui] leaves it before the first event. *)
Definition collectInputsWithTui (cwd : string) (initial : PartialInputs) : Form :=
  focusAt 0
    (mkForm
       (toInitialValue (initial_url initial))
       (toInitialValue (initial_branch initial))
       (toInitialValue (or_cwd (initial_dir initial) cwd))
       "{gray-fg}Tab/Shift+Tab switch focus · Enter submit · Esc cancel{/gray-fg}"
       0 false Pending []).

(** The form after the events [es], oldest first. *)
Definition after (es : list Event) (f : Form) : Form :=
  fold_left (fun f e => handle e f) es f.


Definition settlements (f : Form) : nat :=
  List.length (filter is_settlement (effects f)).

(** [g] has the promise of [f], settled or not as in [f], with no new call
    to [resolve] or [reject]. *)
Definition keeps_promise (f g : Form) : Prop :=
  settled g = settled f /\ promise g = promise f /\
  settlements g = settlements f.

(** What [submit] leaves when the field of index [i], shown by [w], is
    blank: the error line, then the focus on the field. *)
Definition refused (content : string) (i : Z) (w : Widget) (f : Form) : Form :=
  mkForm (urlValue f) (branchValue f) (dirValue f)
    ("{red-fg}" ++ content ++ "{/red-fg}") i (settled f) (promise f)
    (effects f ++ [SetContent ("{red-fg}" ++ content ++ "{/red-fg}"); Render;
                   FocusOn w; Render; Render]).

(** Every field is trimmed and is not empty. *)
Definition filled (v : WorkspaceInputs) : Prop :=
  (trim (url v) = url v /\ url v <> "") /\
  (trim (branch v) = branch v /\ branch v <> "") /\
  (trim (dir v) = dir v /\ dir v <> "").

(** The [settled] flag and the promise agree, [resolve] or [reject] was
    called once if the flag is set and never otherwise, and a fulfilled
    promise holds filled inputs. *)
Definition consistent (f : Form) : Prop :=
  (settled f = false -> promise f = Pending /\ settlements f = 0%nat) /\
  (settled f = true -> promise f <> Pending /\ settlements f = 1%nat) /\
  (forall v, promise f = Fulfilled v -> filled v).

End Tui.

(** ** Key presses on the form

    blessed, not this repository, routes a key press. The textboxes are
    built with [inputOnFocus: true] ([createLabeledInput]): a textbox that
    receives the focus starts reading input, and until that input ends the
    screen emits no key event, so no [screen.key] listener is called. The
    textbox that reads takes the key itself: Escape ends its input, a
    printable character is appended to its value, a control character is
    dropped. With no textbox reading, the press reaches the listener that
    the form bound to the key. Only the three keys bound to [cancel] are
    followed here. *)

Module Keyboard.

Import Tui.



(** [w.getValue()]. *)
Definition value (w : Widget) (f : Form) : string :=
  match w with
  | urlInput => urlValue f
  | branchInput => branchValue f
  | dirInput => dirValue f
  | _ => ""
  end.






End Keyboard.

(** ** Further definitions for the properties below *)

Module More.

Import Cli Tui.

(** A backend on the reference world whose file system refuses to create
    directories: [ensureDir] rejects with [denied] and changes nothing. *)
Definition read_only (denied : JsValue) : Backend Reference.World :=
  mkBackend Reference.World
    Reference.exists_in
    (fun _ w => (Some denied, w))
    (fun _ _ w => (None, w))
    (fun _ dest _ w => (None, Reference.create dest w))
    (fun _ args w =>
       Reference.worktree_add [] Reference.invalid_reference args w)
    (fun a b => a ++ "/" ++ b)
    (fun p => p)
    "/work".

Definition is_destroy (e : Effect) : bool :=
  match e with Destroy => true | _ => false end.

(** How many times [screen.destroy()] was called. *)
Definition destroys (f : Form) : nat :=
  List.length (filter is_destroy (effects f)).

(** The screen is destroyed when the flag is set, and not otherwise. *)
Definition torn_down_once (f : Form) : Prop :=
  destroys f = if settled f then 1%nat else 0%nat.

(** The index of a focusable widget. *)
Definition in_range (i : Z) : Prop :=
  (0 <= i < Z.of_nat (List.length focusables))%Z.

(** Two pieces of the earlier entry point, whose action is one block:
    the extraction of the repository name
    ([url.match(...)], [if (!repoNameMatch) throw ...], [repoNameMatch[1]])
    and the test of the [catch] block on [err.message], which decides the
    retry. *)
Definition earlier_repo_name (url : string) : JsValue + string :=
  match match_repo_name url with
  | None => inl (JsError "Invalid Git URL. Could not extract repository name.")
  | Some repoName => inr repoName
  end.

Definition earlier_missing_branch_test (message : string) : bool :=
  includes message "invalid reference" ||
  includes message "not a valid object name".

(** The line under the form: the hint it opens with, or one of the three
    errors of [submit]. *)
Definition known_message (m : string) : Prop :=
  m = "{gray-fg}Tab/Shift+Tab switch focus · Enter submit · Esc cancel{/gray-fg}"
  \/ m = "{red-fg}Repository URL is required.{/red-fg}"
  \/ m = "{red-fg}Branch is required.{/red-fg}"
  \/ m = "{red-fg}Base directory is required.{/red-fg}".

(** The inputs of the command line made of a value of the form. *)
Definition as_arguments (v : WorkspaceInputs) : Inputs :=
  mkInputs (Tui.url v) (Tui.branch v) (Tui.dir v).

End More.

(** ** Facts about strings *)

Module StringFacts.

Lemma append_nil_r (s : string) : s ++ "" = s.
Proof. induction s as [|c s IH]; simpl; [reflexivity | now rewrite IH]. Qed.

Lemma length_app (a b : string) :
  String.length (a ++ b) = (String.length a + String.length b)%nat.
Proof. induction a as [|x a IH]; simpl; [reflexivity | now rewrite IH]. Qed.

Lemma append_assoc (a b c : string) : (a ++ b) ++ c = a ++ b ++ c.
Proof. induction a as [|x a IH]; simpl; [reflexivity | now rewrite IH]. Qed.

Lemma toLowerCase_app (a b : string) :
  toLowerCase (a ++ b) = toLowerCase a ++ toLowerCase b.
Proof. induction a as [|x a IH]; simpl; [reflexivity | now rewrite IH]. Qed.

(** A factorisation of the folded text comes from one of the text. *)
Lemma toLowerCase_split (s x y : string) :
  toLowerCase s = x ++ y ->
  exists a b, s = a ++ b /\ toLowerCase a = x /\ toLowerCase b = y.
Proof.
  revert s; induction x as [|c x IH]; intros s H.
  - exists "", s. simpl in *. auto.
  - destruct s as [|d s]; simpl in H; [discriminate|].
    injection H as Hc Hs.
    destruct (IH _ Hs) as (a & b & -> & Ha & Hb).
    exists (String d a), b. simpl. now rewrite Hc, Ha.
Qed.

Lemma startsWith_spec (p s : string) :
  startsWith p s = true <-> exists post, s = p ++ post.
Proof.
  revert s; induction p as [|a p IH]; intros s; simpl.
  - split; [intros _; now exists s | reflexivity].
  - destruct s as [|b s].
    + split; [discriminate | intros [post H]; discriminate].
    + rewrite andb_true_iff, Ascii.eqb_eq, IH. split.
      * intros [-> [post ->]]. now exists post.
      * intros [post H]. injection H as -> ->. split; [reflexivity | now exists post].
Qed.

Lemma includes_spec (s p : string) :
  includes s p = true <-> exists pre post, s = pre ++ p ++ post.
Proof.
  induction s as [|c s IH].
  - simpl. rewrite orb_false_r, startsWith_spec. split.
    + intros [post H]. now exists "", post.
    + intros (pre & post & H). destruct pre; simpl in H; [now exists post | discriminate].
  - cbn [includes]. rewrite orb_true_iff, startsWith_spec, IH. split.
    + intros [[post H] | (pre & post & H)].
      * now exists "", post.
      * exists (String c pre), post. simpl. now rewrite H.
    + intros (pre & post & H). destruct pre as [|d pre]; simpl in H.
      * left. now exists post.
      * right. injection H as _ H. now exists pre, post.
Qed.

(** [includes] on the folded text is containment up to case. *)
Lemma includes_folded (text phrase : string) :
  includes (toLowerCase text) (toLowerCase phrase) = true <->
  contains_ci text phrase.
Proof.
  rewrite includes_spec. unfold contains_ci. split.
  - intros (pre & post & H).
    apply toLowerCase_split in H as (a & r & -> & _ & H).
    apply toLowerCase_split in H as (m & b & -> & Hm & _).
    now exists a, m, b.
  - intros (pre & mid & post & -> & H).
    exists (toLowerCase pre), (toLowerCase post).
    now rewrite !toLowerCase_app, H.
Qed.

(** *** [trim] *)

Lemma trimStart_clean (s : string) : clean_start (trimStart s).
Proof.
  induction s as [|c s IH]; simpl; [exact I|].
  destruct (is_ws c) eqn:E; [exact IH | exact E].
Qed.

Lemma trimStart_of_clean (s : string) : clean_start s -> trimStart s = s.
Proof. destruct s as [|c s]; simpl; [reflexivity | now intros ->]. Qed.

Lemma trimEnd_clean (s : string) : clean_start s -> clean_start (trimEnd s).
Proof.
  destruct s as [|c s]; simpl; [exact id|].
  intros H. now rewrite H.
Qed.

Lemma trimEnd_idem (s : string) : trimEnd (trimEnd s) = trimEnd s.
Proof.
  induction s as [|c s IH]; simpl; [reflexivity|].
  destruct (is_ws c && is_empty (trimEnd s)) eqn:E; [reflexivity|].
  simpl. now rewrite IH, E.
Qed.

Lemma trim_idem (s : string) : trim (trim s) = trim s.
Proof.
  unfold trim.
  rewrite (trimStart_of_clean (trimEnd (trimStart s))).
  - apply trimEnd_idem.
  - apply trimEnd_clean, trimStart_clean.
Qed.

Lemma is_empty_false (s : string) : is_empty s = false <-> s <> "".
Proof. destruct s; simpl; split; congruence. Qed.

Lemma is_empty_true (s : string) : is_empty s = true <-> s = "".
Proof. destruct s; simpl; split; congruence. Qed.

End StringFacts.

(** ** Facts about the command-line program *)

Module CliFacts.

Import Cli StringFacts.

(** *** The regular expression of [resolveRepoName] *)

Lemma git_suffix_then_end_false (s : string) :
  s <> ".git" -> s <> "" -> git_suffix_then_end s = false.
Proof.
  intros H1 H2. unfold git_suffix_then_end.
  apply orb_false_iff. split.
  - now apply String.eqb_neq.
  - now apply is_empty_false.
Qed.

Lemma git_suffix_longer (c : ascii) (a : string) :
  git_suffix_then_end (String c (a ++ ".git")) = false.
Proof.
  apply git_suffix_then_end_false; [|discriminate].
  intros H. apply (f_equal String.length) in H.
  cbn [String.length] in H. rewrite length_app in H.
  simpl in H. lia.
Qed.

(** Facing [a ++ ".git"], the lazy group stops as soon as [.git] is all
    that is left. *)
Lemma lazy_group_git (a taken : string) :
  has_char slash a = false ->
  lazy_group taken (a ++ ".git") = Some (taken ++ a).
Proof.
  revert taken; induction a as [|c a IH]; intros taken H.
  - simpl. now rewrite append_nil_r.
  - cbn [append lazy_group]. rewrite git_suffix_longer.
    simpl in H. apply orb_false_iff in H as [Hc Ha].
    rewrite Hc, IH by exact Ha.
    now rewrite append_assoc.
Qed.

(** With no [.git] at its end, the rest is taken whole. *)
Lemma lazy_group_plain (rest taken : string) :
  has_char slash rest = false ->
  (forall a, rest <> a ++ ".git") ->
  lazy_group taken rest = Some (taken ++ rest).
Proof.
  revert taken; induction rest as [|c rest IH]; intros taken H Hno.
  - simpl. now rewrite append_nil_r.
  - cbn [lazy_group].
    assert (G : git_suffix_then_end (String c rest) = false).
    { apply git_suffix_then_end_false; [|discriminate].
      intros E. apply (Hno ""). exact E. }
    rewrite G. simpl in H. apply orb_false_iff in H as [Hc Hr].
    rewrite Hc, IH.
    + now rewrite append_assoc.
    + exact Hr.
    + intros a E. apply (Hno (String c a)). simpl. now rewrite E.
Qed.

(** The group cannot cross a slash. *)
Lemma lazy_group_slash (rest taken : string) :
  has_char slash rest = true -> lazy_group taken rest = None.
Proof.
  revert taken; induction rest as [|c rest IH]; intros taken H.
  - discriminate.
  - cbn [lazy_group].
    assert (G : git_suffix_then_end (String c rest) = false).
    { apply git_suffix_then_end_false; [|discriminate].
      intros E. rewrite E in H. discriminate. }
    rewrite G. simpl in H.
    destruct (Ascii.eqb c slash); [reflexivity|].
    apply IH. exact H.
Qed.

Lemma match_here_slash (s : string) :
  has_char slash s = true -> match_here s = None.
Proof.
  destruct s as [|c s]; simpl; [reflexivity|].
  destruct (Ascii.eqb c slash); [reflexivity|].
  simpl. apply lazy_group_slash.
Qed.

Lemma has_char_app (c : ascii) (a b : string) :
  has_char c (a ++ b) = has_char c a || has_char c b.
Proof.
  induction a as [|x a IH]; simpl; [reflexivity|].
  now rewrite IH, orb_assoc.
Qed.

(** The match starts at the last slash of the url. *)
Lemma match_repo_name_last_segment (prefix segment : string) :
  match_repo_name (prefix ++ "/" ++ segment) =
  match match_here segment with
  | Some group1 => Some group1
  | None => match_repo_name segment
  end.
Proof.
  induction prefix as [|c prefix IH].
  - reflexivity.
  - change (String c prefix ++ "/" ++ segment)
      with (String c (prefix ++ "/" ++ segment)).
    cbn [match_repo_name]. rewrite IH.
    destruct (Ascii.eqb c slash); [|reflexivity].
    rewrite match_here_slash; [reflexivity|].
    rewrite has_char_app. simpl. apply orb_true_r.
Qed.

Lemma match_repo_name_no_slash (url : string) :
  has_char slash url = false -> match_repo_name url = None.
Proof.
  induction url as [|c url IH]; simpl; [reflexivity|].
  intros H. apply orb_false_iff in H as [-> H]. now apply IH.
Qed.

Lemma match_repo_name_git (prefix name : string) :
  name <> "" -> has_char slash name = false ->
  match_repo_name (prefix ++ "/" ++ name ++ ".git") = Some name.
Proof.
  intros Hne H. rewrite match_repo_name_last_segment.
  destruct name as [|c name]; [congruence|].
  simpl in H. apply orb_false_iff in H as [Hc H].
  cbn [append match_here]. rewrite Hc.
  now rewrite lazy_group_git.
Qed.

Lemma match_repo_name_plain (prefix name : string) :
  name <> "" -> has_char slash name = false ->
  ~ has_stem_before ".git" name ->
  match_repo_name (prefix ++ "/" ++ name) = Some name.
Proof.
  intros Hne H Hstem. rewrite match_repo_name_last_segment.
  destruct name as [|c name]; [congruence|].
  simpl in H. apply orb_false_iff in H as [Hc H].
  cbn [match_here]. rewrite Hc.
  rewrite lazy_group_plain; [reflexivity | exact H |].
  intros a E. apply Hstem. exists (String c a). split; [discriminate|].
  simpl. now rewrite E.
Qed.

(** *** The effectful functions, step by step *)

Section Steps.

Context {World : Type}.
Variable B : Backend World.

Lemma bind_ok {A C} (m : @M World A) (k : A -> @M World C) st a st' :
  m st = (inr a, st') -> bind m k st = k a st'.
Proof. unfold bind. now intros ->. Qed.

Lemma bind_throw {A C} (m : @M World A) (k : A -> @M World C) st e st' :
  m st = (inl e, st') -> bind m k st = (inl e, st').
Proof. unfold bind. now intros ->. Qed.

Lemma call_eq op f (st : State World) :
  call op f st = (outcome (fst (f (world st))), called op f st).
Proof. reflexivity. Qed.

Lemma createWorktree_conflict bareRepoPath worktreePath branch st :
  fs_existsSync B worktreePath (world st) = true ->
  createWorktree B bareRepoPath worktreePath branch st =
  (inl (JsError ("Worktree path " ++ worktreePath ++ " already exists.")),
   seen worktreePath st).
Proof.
  intros H. unfold createWorktree, bind, existsSync. now rewrite H.
Qed.

Lemma createWorktree_free bareRepoPath worktreePath branch st :
  fs_existsSync B worktreePath (world st) = false ->
  createWorktree B bareRepoPath worktreePath branch st =
  try_catch
    (raw B bareRepoPath ["worktree"; "add"; worktreePath; branch])
    (fun error =>
       if negb (isMissingBranchError error) then throw error
       else raw B bareRepoPath ["worktree"; "add"; "-b"; branch; worktreePath])
    (seen worktreePath st).
Proof.
  intros H. unfold createWorktree, bind, existsSync. now rewrite H.
Qed.

Lemma ensureBareRepository_eq url bareRepoPath st :
  ensureBareRepository B url bareRepoPath st =
  if fs_existsSync B bareRepoPath (world st)
  then fetch B bareRepoPath "origin" (seen bareRepoPath st)
  else clone B url bareRepoPath ["--bare"; "--progress"] (seen bareRepoPath st).
Proof.
  unfold ensureBareRepository, bind, existsSync.
  now destruct (fs_existsSync B bareRepoPath (world st)).
Qed.

(** Once the inputs are valid the body is the three effectful steps. *)
Lemma action_body_valid urlArg branchArg dirOption inputs repoName st :
  resolveInputs (process_cwd B) urlArg branchArg dirOption = inr inputs ->
  resolveRepoName (url inputs) = inr repoName ->
  action_body B urlArg branchArg dirOption st =
  let l := layout B (dir inputs) repoName (branch inputs) in
  bind (ensureDir B (repoDir l)) (fun _ =>
  bind (ensureBareRepository B (url inputs) (bareRepoPath l)) (fun _ =>
  bind (createWorktree B (bareRepoPath l) (worktreePath l) (branch inputs)) (fun _ =>
  ret (worktreePath l, branch inputs)))) st.
Proof.
  intros H1 H2. unfold action_body. unfold bind at 1. rewrite H1.
  cbn [lift ret]. unfold bind at 1. rewrite H2. reflexivity.
Qed.

(** Invalid inputs: the body throws at once and the state is untouched. *)
Lemma action_body_invalid_inputs urlArg branchArg dirOption e st :
  resolveInputs (process_cwd B) urlArg branchArg dirOption = inl e ->
  action_body B urlArg branchArg dirOption st = (inl e, st).
Proof. intros H. unfold action_body. unfold bind at 1. now rewrite H. Qed.

Lemma action_body_invalid_url urlArg branchArg dirOption inputs e st :
  resolveInputs (process_cwd B) urlArg branchArg dirOption = inr inputs ->
  resolveRepoName (url inputs) = inl e ->
  action_body B urlArg branchArg dirOption st = (inl e, st).
Proof.
  intros H1 H2. unfold action_body. unfold bind at 1. rewrite H1.
  cbn [lift ret]. unfold bind at 1. now rewrite H2.
Qed.

(** The provisioning steps of the action, when they succeed: one
    [ensureDir], one look at the bare path, one fetch or one clone. *)
Lemma provision_ok url repoDir bareRepoPath st st2 :
  bind (ensureDir B repoDir)
    (fun _ => ensureBareRepository B url bareRepoPath) st = (inr tt, st2) ->
  let w1 := snd (fs_ensureDir B repoDir (world st)) in
  (fs_existsSync B bareRepoPath w1 = true /\
   st2 = mkState (snd (git_fetch B bareRepoPath "origin" w1))
           (trace st ++ [EnsureDir repoDir; ExistsSync bareRepoPath;
                         GitFetch bareRepoPath "origin"]))
  \/
  (fs_existsSync B bareRepoPath w1 = false /\
   st2 = mkState
           (snd (git_clone B url bareRepoPath ["--bare"; "--progress"] w1))
           (trace st ++ [EnsureDir repoDir; ExistsSync bareRepoPath;
                         GitClone url bareRepoPath ["--bare"; "--progress"]])).
Proof.
  unfold bind, ensureDir. rewrite call_eq.
  destruct (fst (fs_ensureDir B repoDir (world st))) as [e|]; cbn [outcome];
    [discriminate|].
  rewrite ensureBareRepository_eq. unfold called, seen. cbn [world trace].
  destruct (fs_existsSync B bareRepoPath _) eqn:Hb; [left | right];
    unfold fetch, clone in H; rewrite call_eq in H; unfold called in H;
    cbn [world trace] in H; injection H as _ <-;
    (split; [reflexivity|]); now rewrite <- !app_assoc.
Qed.

(** A worktree that was created was added by a successful git call, the
    first attempt or the retry. *)
Lemma createWorktree_ok bareRepoPath worktreePath branch st st' :
  createWorktree B bareRepoPath worktreePath branch st = (inr tt, st') ->
  exists args w,
    In args [["worktree"; "add"; worktreePath; branch];
             ["worktree"; "add"; "-b"; branch; worktreePath]] /\
    git_raw B bareRepoPath args w = (None, world st').
Proof.
  destruct (fs_existsSync B worktreePath (world st)) eqn:Hx.
  - rewrite createWorktree_conflict by exact Hx. discriminate.
  - rewrite createWorktree_free by exact Hx.
    unfold try_catch, raw. rewrite call_eq.
    destruct (git_raw B bareRepoPath ["worktree"; "add"; worktreePath; branch]
                (world (seen worktreePath st))) as [[e|] w1] eqn:H1;
      cbn [fst snd outcome].
    + destruct (negb (isMissingBranchError e)); [discriminate|].
      rewrite call_eq. unfold called. cbn [world trace].
      rewrite H1. cbn [snd].
      destruct (git_raw B bareRepoPath
                  ["worktree"; "add"; "-b"; branch; worktreePath] w1)
        as [[e2|] w2] eqn:H2; cbn [fst snd outcome]; [discriminate|].
      intros H. injection H as <-. cbn [world].
      exists ["worktree"; "add"; "-b"; branch; worktreePath], w1.
      split; [simpl; tauto | exact H2].
    + intros H. injection H as <-. unfold called. cbn [world].
      rewrite H1. cbn [snd].
      exists ["worktree"; "add"; worktreePath; branch],
             (world (seen worktreePath st)).
      split; [simpl; tauto | exact H1].
Qed.

(** The calls of the creator: the look at the path, then at most the
    first attempt and the retry. *)
Lemma createWorktree_calls bareRepoPath worktreePath branch st :
  let first := GitRaw bareRepoPath ["worktree"; "add"; worktreePath; branch] in
  let retry :=
    GitRaw bareRepoPath ["worktree"; "add"; "-b"; branch; worktreePath] in
  exists rest,
    trace (snd (createWorktree B bareRepoPath worktreePath branch st))
      = (trace st ++ ExistsSync worktreePath :: rest)%list
    /\ (rest = [] \/ rest = [first] \/ rest = [first; retry]).
Proof.
  intros first retry.
  destruct (fs_existsSync B worktreePath (world st)) eqn:Hx.
  - rewrite createWorktree_conflict by exact Hx. exists []. now split; [|left].
  - rewrite createWorktree_free by exact Hx.
    unfold try_catch, raw. rewrite call_eq.
    destruct (outcome _) as [e|[]].
    + destruct (negb (isMissingBranchError e)).
      * exists [first]. cbn [throw snd called seen trace].
        rewrite <- app_assoc. split; [reflexivity | right; now left].
      * exists [first; retry]. rewrite call_eq. cbn [snd called seen trace].
        rewrite <- !app_assoc. split; [reflexivity | right; now right].
    + exists [first]. cbn [snd called seen trace].
      rewrite <- app_assoc. split; [reflexivity | right; now left].
Qed.

(** The creator issues no fetch and no clone. *)
Lemma createWorktree_trace bareRepoPath worktreePath branch st :
  exists rest,
    trace (snd (createWorktree B bareRepoPath worktreePath branch st))
      = (trace st ++ rest)%list
    /\ filter is_provision rest = [].
Proof.
  destruct (fs_existsSync B worktreePath (world st)) eqn:Hx.
  - rewrite createWorktree_conflict by exact Hx.
    now exists [ExistsSync worktreePath].
  - rewrite createWorktree_free by exact Hx.
    unfold try_catch, raw. rewrite call_eq.
    destruct (outcome _) as [e|[]].
    + destruct (negb (isMissingBranchError e)).
      * exists [ExistsSync worktreePath;
                GitRaw bareRepoPath ["worktree"; "add"; worktreePath; branch]].
        cbn [throw snd called seen trace]. now rewrite <- app_assoc.
      * exists [ExistsSync worktreePath;
                GitRaw bareRepoPath ["worktree"; "add"; worktreePath; branch];
                GitRaw bareRepoPath ["worktree"; "add"; "-b"; branch; worktreePath]].
        rewrite call_eq. cbn [snd called seen trace].
        now rewrite <- !app_assoc.
    + exists [ExistsSync worktreePath;
              GitRaw bareRepoPath ["worktree"; "add"; worktreePath; branch]].
      cbn [snd called seen trace]. now rewrite <- app_assoc.
Qed.

Lemma resolveInputs_blank cwd urlArg branchArg dirArg :
  blank urlArg \/ blank branchArg ->
  resolveInputs cwd urlArg branchArg dirArg
  = inl (JsError "Usage: git-wt <repo-url> <branch-name> [options]").
Proof.
  unfold resolveInputs, blank.
  intros [H | H].
  - destruct urlArg as [u|]; cbn [optional_trim falsy]; [|reflexivity].
    rewrite H. reflexivity.
  - destruct branchArg as [b|]; cbn [optional_trim falsy].
    + rewrite H. cbn [is_empty]. now rewrite orb_true_r.
    + now rewrite orb_true_r.
Qed.

Lemma resolveInputs_present cwd urlArg branchArg dirArg :
  ~ blank urlArg -> ~ blank branchArg ->
  exists u b,
    urlArg = Some u /\ branchArg = Some b /\
    resolveInputs cwd urlArg branchArg dirArg
    = inr (mkInputs (trim u) (trim b)
             (if is_empty (trim dirArg) then cwd else trim dirArg)).
Proof.
  unfold resolveInputs, blank. intros Hu Hb.
  destruct urlArg as [u|]; [|tauto]. destruct branchArg as [b|]; [|tauto].
  exists u, b. cbn [optional_trim falsy].
  apply is_empty_false in Hu, Hb. now rewrite Hu, Hb.
Qed.

Lemma blank_dec (arg : option string) : blank arg \/ ~ blank arg.
Proof.
  destruct arg as [s|]; simpl; [|now left].
  destruct (trim s); [now left | right; discriminate].
Qed.

End Steps.

End CliFacts.

(** ** The worktree creator and the repository provisioner *)

Module CliSpec.

Import Cli StringFacts CliFacts.

Lemma isMissingBranchError_spec (error : JsValue) :
  isMissingBranchError error = true <->
  contains_ci (toErrorMessage error) "invalid reference" \/
  contains_ci (toErrorMessage error) "not a valid object name".
Proof.
  unfold isMissingBranchError, some, MISSING_BRANCH_PATTERNS.
  cbn [existsb]. rewrite orb_false_r, orb_true_iff.
  change "invalid reference" with (toLowerCase "invalid reference") at 1.
  change "not a valid object name"
    with (toLowerCase "not a valid object name") at 1.
  now rewrite !includes_folded.
Qed.

(** C1. When the first [worktree add <path> <branch>] fails, the creator
    retries, once, with [worktree add -b <branch> <path>] exactly when the
    message of the error contains "invalid reference" or "not a valid
    object name" up to case. The retry is the last call: whatever it
    returns or throws is the result. Any other error is thrown again with
    no second call. *)
Theorem C1_retry_once_iff_missing_branch {World} (B : Backend World)
    (bareRepoPath worktreePath branch : string) (st : State World)
    (error : JsValue) (w1 : World) :
  fs_existsSync B worktreePath (world st) = false ->
  git_raw B bareRepoPath ["worktree"; "add"; worktreePath; branch] (world st)
    = (Some error, w1) ->
  let first := GitRaw bareRepoPath ["worktree"; "add"; worktreePath; branch] in
  let retry := GitRaw bareRepoPath ["worktree"; "add"; "-b"; branch; worktreePath] in
  let again :=
    git_raw B bareRepoPath ["worktree"; "add"; "-b"; branch; worktreePath] w1 in
  let run := createWorktree B bareRepoPath worktreePath branch st in
  (isMissingBranchError error = true <->
     contains_ci (toErrorMessage error) "invalid reference" \/
     contains_ci (toErrorMessage error) "not a valid object name")
  /\ (isMissingBranchError error = true ->
        run = (outcome (fst again),
               mkState (snd again)
                 (trace st ++ [ExistsSync worktreePath; first; retry])))
  /\ (isMissingBranchError error = false ->
        run = (inl error,
               mkState w1 (trace st ++ [ExistsSync worktreePath; first]))).
Proof.
  intros Hfree Hfirst first retry again run.
  split; [apply isMissingBranchError_spec|].
  assert (E : run =
    (if negb (isMissingBranchError error) then throw error
     else raw B bareRepoPath ["worktree"; "add"; "-b"; branch; worktreePath])
      (mkState w1 (trace st ++ [ExistsSync worktreePath; first]))).
  { subst run. rewrite createWorktree_free by exact Hfree.
    unfold try_catch, raw. rewrite call_eq.
    unfold called, seen. cbn [world trace]. rewrite Hfirst.
    cbn [fst snd outcome]. now rewrite <- app_assoc. }
  split; intros Hm; rewrite E, Hm; cbn [negb].
  - unfold raw. rewrite call_eq. unfold called. cbn [world trace].
    now rewrite <- app_assoc.
  - reflexivity.
Qed.

Lemma already_exists_message (path : string) :
  includes (toLowerCase ("Worktree path " ++ path ++ " already exists."))
    "already exists" = true.
Proof.
  apply includes_spec.
  exists (toLowerCase "Worktree path " ++ toLowerCase path ++ " "), ".".
  rewrite !toLowerCase_app, !append_assoc. reflexivity.
Qed.

(** C3. A worktree path that exists when the creator runs makes it throw
    "Worktree path ... already exists." after the one look at the path: no
    git call is issued and the world is as it was. Consequently a second
    run with the same arguments, after a first run that succeeded, ends
    with exit code 1 and that message, issues no worktree command, and
    leaves the view of the worktree unchanged. The environment is assumed
    to behave as git does: a successful worktree-add creates its path, and
    [ensureDir], fetch and clone do not touch the worktree, whose view
    tells whether its path exists; the provisioning of the second run is
    assumed to succeed. *)
Theorem C3_existing_worktree_is_a_conflict {World} (B : Backend World) :
  (forall bare path name (st : State World),
     fs_existsSync B path (world st) = true ->
     createWorktree B bare path name st =
     (inl (JsError ("Worktree path " ++ path ++ " already exists.")),
      mkState (world st) (trace st ++ [ExistsSync path])))
  /\
  (forall (V : Type) (view : World -> V)
     (urlArg branchArg : option string) (dirOption : string)
     (inputs : Inputs) (repoName : string)
     (st0 st1 st2 : State World) (r1 : RunResult),
     resolveInputs (process_cwd B) urlArg branchArg dirOption = inr inputs ->
     resolveRepoName (url inputs) = inr repoName ->
     let l := layout B (dir inputs) repoName (branch inputs) in
     let conflict :=
       "Worktree path " ++ worktreePath l ++ " already exists." in
     (forall args w w',
        In args [["worktree"; "add"; worktreePath l; branch inputs];
                 ["worktree"; "add"; "-b"; branch inputs; worktreePath l]] ->
        git_raw B (bareRepoPath l) args w = (None, w') ->
        fs_existsSync B (worktreePath l) w' = true) ->
     (forall w w',
        view w = view w' ->
        fs_existsSync B (worktreePath l) w
        = fs_existsSync B (worktreePath l) w') ->
     preserves view (fs_ensureDir B (repoDir l)) ->
     preserves view (git_fetch B (bareRepoPath l) "origin") ->
     preserves view
       (git_clone B (url inputs) (bareRepoPath l) ["--bare"; "--progress"]) ->
     action B urlArg branchArg dirOption st0 = (r1, st1) ->
     exitCode r1 = 0%Z ->
     bind (ensureDir B (repoDir l))
       (fun _ => ensureBareRepository B (url inputs) (bareRepoPath l)) st1
       = (inr tt, st2) ->
     action B urlArg branchArg dirOption st1 =
       (mkRunResult 1 (Some conflict) None,
        mkState (world st2) (trace st2 ++ [ExistsSync (worktreePath l)]))
     /\ includes (toLowerCase conflict) "already exists" = true
     /\ filter is_raw (trace st2 ++ [ExistsSync (worktreePath l)])
        = filter is_raw (trace st1)
     /\ view (world st2) = view (world st1)).
Proof.
  split; [intros bare path name st; apply createWorktree_conflict|].
  intros V view urlArg branchArg dirOption inputs repoName st0 st1 st2 r1
    Hin Hname l conflict Hadd Hobs Hdir Hfetch Hclone Hrun1 Hexit Hprov.
  (* the first run went through the creator, which added the worktree *)
  assert (Hex1 : fs_existsSync B (worktreePath l) (world st1) = true).
  { unfold action in Hrun1.
    rewrite (action_body_valid B _ _ _ _ _ _ Hin Hname) in Hrun1.
    cbv zeta in Hrun1. fold l in Hrun1. unfold bind in Hrun1.
    destruct (ensureDir B (repoDir l) st0) as [[e|[]] sa];
      [injection Hrun1 as <- _; discriminate|].
    destruct (ensureBareRepository B (url inputs) (bareRepoPath l) sa)
      as [[e|[]] sb]; [injection Hrun1 as <- _; discriminate|].
    destruct (createWorktree B (bareRepoPath l) (worktreePath l)
                (branch inputs) sb) as [[e|[]] sc] eqn:Hc;
      [injection Hrun1 as <- _; discriminate|].
    unfold ret in Hrun1. injection Hrun1 as _ <-.
    destruct (createWorktree_ok B _ _ _ _ _ Hc) as (args & w & Hargs & Hraw).
    exact (Hadd _ _ _ Hargs Hraw). }
  (* the provisioning of the second run keeps the view *)
  assert (Hview : view (world st2) = view (world st1)
                  /\ filter is_raw (trace st2) = filter is_raw (trace st1)).
  { destruct (provision_ok B _ _ _ _ _ Hprov) as [[_ ->] | [_ ->]];
      cbn [world trace]; rewrite filter_app; cbn [filter is_raw];
      rewrite app_nil_r; (split; [|reflexivity]).
    - now rewrite Hfetch, Hdir.
    - now rewrite Hclone, Hdir. }
  destruct Hview as [Hview Hraw].
  assert (Hex2 : fs_existsSync B (worktreePath l) (world st2) = true).
  { rewrite (Hobs _ _ Hview). exact Hex1. }
  split; [|split; [apply already_exists_message | split; [|exact Hview]]].
  - unfold action.
    rewrite (action_body_valid B _ _ _ _ _ _ Hin Hname).
    cbv zeta. fold l.
    unfold bind in Hprov |- *.
    destruct (ensureDir B (repoDir l) st1) as [[e|[]] sa]; [discriminate|].
    rewrite Hprov.
    rewrite (createWorktree_conflict B _ _ _ _ Hex2). reflexivity.
  - rewrite filter_app. cbn [filter is_raw]. now rewrite app_nil_r.
Qed.

(** The calls of a valid invocation whose [ensureDir] succeeds: the
    [ensureDir], the look at the bare path, one fetch or clone, and then
    calls that are neither. *)
Lemma action_calls {World} (B : Backend World)
    (urlArg branchArg : option string) (dirOption : string)
    (inputs : Inputs) (repoName : string) (st : State World) :
  resolveInputs (process_cwd B) urlArg branchArg dirOption = inr inputs ->
  resolveRepoName (url inputs) = inr repoName ->
  let l := layout B (dir inputs) repoName (branch inputs) in
  fst (fs_ensureDir B (repoDir l) (world st)) = None ->
  let w1 := snd (fs_ensureDir B (repoDir l) (world st)) in
  let found := fs_existsSync B (bareRepoPath l) w1 in
  let op :=
    if found then GitFetch (bareRepoPath l) "origin"
    else GitClone (url inputs) (bareRepoPath l) ["--bare"; "--progress"] in
  let reply :=
    if found then git_fetch B (bareRepoPath l) "origin" w1
    else git_clone B (url inputs) (bareRepoPath l) ["--bare"; "--progress"] w1 in
  let ensured := mkState w1 (trace st ++ [EnsureDir (repoDir l)]) in
  let provisioned :=
    mkState (snd reply)
      (trace st ++ [EnsureDir (repoDir l); ExistsSync (bareRepoPath l); op]) in
  ensureBareRepository B (url inputs) (bareRepoPath l) ensured
    = (outcome (fst reply), provisioned)
  /\ action_body B urlArg branchArg dirOption st =
       bind (ensureBareRepository B (url inputs) (bareRepoPath l))
         (fun _ =>
          bind (createWorktree B (bareRepoPath l) (worktreePath l)
                  (branch inputs))
            (fun _ => ret (worktreePath l, branch inputs))) ensured
  /\ (exists rest,
        trace (snd (action B urlArg branchArg dirOption st))
          = (trace provisioned ++ rest)%list
        /\ filter is_provision rest = []).
Proof.
  intros Hin Hname l Hdir w1 found op reply ensured provisioned.
  assert (E : ensureBareRepository B (url inputs) (bareRepoPath l) ensured
              = (outcome (fst reply), provisioned)).
  { rewrite ensureBareRepository_eq. subst provisioned reply op.
    unfold ensured at 1. cbn [world]. fold found.
    destruct found; unfold fetch, clone; rewrite call_eq;
      unfold called, seen, ensured; cbn [world trace];
      now rewrite <- !app_assoc. }
  assert (A : action_body B urlArg branchArg dirOption st =
              bind (ensureBareRepository B (url inputs) (bareRepoPath l))
                (fun _ =>
                 bind (createWorktree B (bareRepoPath l) (worktreePath l)
                         (branch inputs))
                   (fun _ => ret (worktreePath l, branch inputs))) ensured).
  { rewrite (action_body_valid B _ _ _ _ _ _ Hin Hname). cbv zeta. fold l.
    unfold bind at 1. unfold ensureDir. rewrite call_eq, Hdir. reflexivity. }
  split; [exact E | split; [exact A|]].
  unfold action. rewrite A. unfold bind at 1. rewrite E.
  destruct (outcome (fst reply)) as [e|[]].
  - exists []. now rewrite app_nil_r.
  - destruct (createWorktree_trace B (bareRepoPath l) (worktreePath l)
                (branch inputs) provisioned) as (rest & Ht & Hf).
    exists rest. split; [|exact Hf].
    unfold bind.
    destruct (createWorktree B (bareRepoPath l) (worktreePath l)
                (branch inputs) provisioned) as [[e|[]] sc];
      cbn [snd ret] in *; exact Ht.
Qed.

(** No invocation issues more than one fetch or clone. *)
Lemma action_provision_calls {World} (B : Backend World)
    (urlArg branchArg : option string) (dirOption : string)
    (st : State World) :
  exists ops,
    trace (snd (action B urlArg branchArg dirOption st))
      = (trace st ++ ops)%list
    /\ (length (filter is_provision ops) <= 1)%nat.
Proof.
  destruct (resolveInputs (process_cwd B) urlArg branchArg dirOption)
    as [e | inputs] eqn:Hin.
  { exists []. unfold action.
    rewrite (action_body_invalid_inputs B _ _ _ _ _ Hin).
    cbn [snd]. rewrite app_nil_r. split; [reflexivity | cbn; lia]. }
  destruct (resolveRepoName (url inputs)) as [e | repoName] eqn:Hname.
  { exists []. unfold action.
    rewrite (action_body_invalid_url B _ _ _ _ _ _ Hin Hname).
    cbn [snd]. rewrite app_nil_r. split; [reflexivity | cbn; lia]. }
  pose (l := layout B (dir inputs) repoName (branch inputs)).
  destruct (fst (fs_ensureDir B (repoDir l) (world st))) as [e|] eqn:Hd.
  { exists [EnsureDir (repoDir l)]. unfold action.
    rewrite (action_body_valid B _ _ _ _ _ _ Hin Hname). cbv zeta. fold l.
    unfold bind at 1. unfold ensureDir. rewrite call_eq, Hd.
    split; [reflexivity | cbn; lia]. }
  destruct (action_calls B _ _ _ _ _ st Hin Hname Hd)
    as (_ & _ & (rest & Ht & Hf)).
  fold l in Ht. cbv zeta in Ht. cbn [trace] in Ht.
  eexists. split.
  - rewrite Ht, <- app_assoc. reflexivity.
  - rewrite filter_app, Hf, app_nil_r.
    destruct (fs_existsSync B (bareRepoPath l) _); cbn; lia.
Qed.

(** C4. No invocation issues more than one fetch or clone. In an
    invocation whose inputs are valid and whose [ensureDir] of the
    repository directory succeeds, the provisioner issues exactly one: a
    fetch of [origin] inside the bare path when that path exists, and
    otherwise, the repository directory having been ensured, a clone of
    the url into it with [--bare --progress]. Nothing that follows is a
    fetch or a clone. An error of that call is what the provisioner
    throws; the action then reports its message with exit code 1 and
    issues no further call. *)
Theorem C4_provisioner_runs_once {World} (B : Backend World) :
  (forall urlArg branchArg dirOption (st : State World),
     exists ops,
       trace (snd (action B urlArg branchArg dirOption st))
         = (trace st ++ ops)%list
       /\ (length (filter is_provision ops) <= 1)%nat)
  /\
  (forall (urlArg branchArg : option string) (dirOption : string)
     (inputs : Inputs) (repoName : string) (st : State World),
     resolveInputs (process_cwd B) urlArg branchArg dirOption = inr inputs ->
     resolveRepoName (url inputs) = inr repoName ->
     let l := layout B (dir inputs) repoName (branch inputs) in
     fst (fs_ensureDir B (repoDir l) (world st)) = None ->
     let w1 := snd (fs_ensureDir B (repoDir l) (world st)) in
     let found := fs_existsSync B (bareRepoPath l) w1 in
     let op :=
       if found then GitFetch (bareRepoPath l) "origin"
       else GitClone (url inputs) (bareRepoPath l) ["--bare"; "--progress"] in
     let reply :=
       if found then git_fetch B (bareRepoPath l) "origin" w1
       else git_clone B (url inputs) (bareRepoPath l)
              ["--bare"; "--progress"] w1 in
     let ensured := mkState w1 (trace st ++ [EnsureDir (repoDir l)]) in
     let provisioned :=
       mkState (snd reply)
         (trace st
          ++ [EnsureDir (repoDir l); ExistsSync (bareRepoPath l); op]) in
     ensureBareRepository B (url inputs) (bareRepoPath l) ensured
       = (outcome (fst reply), provisioned)
     /\ (exists rest,
           trace (snd (action B urlArg branchArg dirOption st))
             = (trace provisioned ++ rest)%list
           /\ filter is_provision rest = [])
     /\ (forall e,
           fst reply = Some e ->
           action B urlArg branchArg dirOption st
             = (mkRunResult 1 (Some (toErrorMessage e)) None, provisioned))).
Proof.
  split; [intros; apply action_provision_calls|].
  intros urlArg branchArg dirOption inputs repoName st
    Hin Hname l Hdir w1 found op reply ensured provisioned.
  destruct (action_calls B _ _ _ _ _ st Hin Hname Hdir) as (E & A & T).
  fold l w1 found op reply ensured provisioned in E, A, T.
  split; [exact E | split; [exact T|]].
  intros e He. unfold action. rewrite A. unfold bind at 1.
  rewrite E, He. reflexivity.
Qed.

(** C8. When the url or the branch is missing or blank, or no repository
    name can be extracted from the url, the action ends with exit code 1
    and a message, and the state is the one it started from: no call to
    the file system or to git was issued, and the world is as it was. *)
Theorem C8_validation_before_effects {World} (B : Backend World)
    (urlArg branchArg : option string) (dirOption : string)
    (st : State World) :
  blank urlArg \/ blank branchArg \/
  (exists u e, urlArg = Some u /\ resolveRepoName (trim u) = inl e) ->
  exists message,
    action B urlArg branchArg dirOption st
      = (mkRunResult 1 (Some message) None, st).
Proof.
  intros H.
  assert (Hblank :
            blank urlArg \/ blank branchArg ->
            exists message,
              action B urlArg branchArg dirOption st
                = (mkRunResult 1 (Some message) None, st)).
  { intros Hb. eexists. unfold action.
    rewrite (action_body_invalid_inputs B _ _ _ _ _
               (resolveInputs_blank _ _ _ _ Hb)).
    reflexivity. }
  destruct H as [H | [H | (u & e & Hu & He)]];
    [apply Hblank; now left | apply Hblank; now right |].
  destruct (blank_dec urlArg) as [Bu | Pu]; [apply Hblank; now left|].
  destruct (blank_dec branchArg) as [Bb | Pb]; [apply Hblank; now right|].
  destruct (resolveInputs_present (process_cwd B) _ _ dirOption Pu Pb)
    as (u' & b & Hu' & _ & Hin).
  rewrite Hu in Hu'. injection Hu' as <-.
  exists (toErrorMessage e). unfold action.
  rewrite (action_body_invalid_url B _ _ _ _ e _ Hin); [reflexivity|].
  exact He.
Qed.

(** C5. For a name that is not empty and has no slash, the url
    [.../name.git] resolves to [name], and so does [.../name] when [name]
    does not itself end in [.git] after a stem (a segment that does is of
    the first form); a url with no slash is
    refused with a message that begins "Invalid Git URL". The three paths
    are joins: the repository directory of the resolved base directory and
    the name, the bare path of the repository directory and ".bare", the
    worktree path of the repository directory and the branch. They are
    values of a pure function, computed before the first call the action
    issues, which is the [ensureDir] of the repository directory. *)
Theorem C5_repo_name_and_layout {World} (B : Backend World) :
  (forall prefix name,
     name <> "" ->
     has_char slash name = false ->
     resolveRepoName (prefix ++ "/" ++ name ++ ".git") = inr name
     /\ (~ has_stem_before ".git" name ->
         resolveRepoName (prefix ++ "/" ++ name) = inr name))
  /\ (forall url,
        has_char slash url = false ->
        exists message,
          resolveRepoName url = inl (JsError message) /\
          startsWith "Invalid Git URL" message = true)
  /\ (forall dir repoName branch,
        let l := layout B dir repoName branch in
        repoDir l = path_join B (path_resolve B dir) repoName /\
        bareRepoPath l = path_join B (repoDir l) ".bare" /\
        worktreePath l = path_join B (repoDir l) branch)
  /\ (forall urlArg branchArg dirOption inputs repoName (st : State World),
        resolveInputs (process_cwd B) urlArg branchArg dirOption = inr inputs ->
        resolveRepoName (url inputs) = inr repoName ->
        exists rest,
          trace (snd (action B urlArg branchArg dirOption st))
          = (trace st
             ++ EnsureDir (path_join B (path_resolve B (dir inputs)) repoName)
             :: rest)%list).
Proof.
  split; [|split; [|split]].
  - intros prefix name Hne Hslash.
    assert (R : forall s, match_repo_name s = Some name ->
                          resolveRepoName s = inr name).
    { intros s Hs. unfold resolveRepoName. rewrite Hs.
      apply is_empty_false in Hne. now rewrite Hne. }
    split.
    + apply R. now apply match_repo_name_git.
    + intros Hstem. apply R. now apply match_repo_name_plain.
  - intros url Hu. eexists. unfold resolveRepoName.
    rewrite (match_repo_name_no_slash _ Hu). split; reflexivity.
  - intros dir repoName branch. cbv zeta. repeat split.
  - intros urlArg branchArg dirOption inputs repoName st Hin Hname.
    pose (l := layout B (dir inputs) repoName (branch inputs)).
    destruct (fst (fs_ensureDir B (repoDir l) (world st))) as [e|] eqn:Hd.
    + exists []. unfold action.
      rewrite (action_body_valid B _ _ _ _ _ _ Hin Hname). cbv zeta. fold l.
      unfold bind at 1. unfold ensureDir. rewrite call_eq, Hd. reflexivity.
    + destruct (action_calls B _ _ _ _ _ st Hin Hname Hd)
        as (_ & _ & (rest & Ht & _)).
      eexists. rewrite Ht. cbn [trace]. rewrite <- app_assoc. reflexivity.
Qed.

(** *** The theorems on concrete runs *)

Lemma exists_in_create_same (path : string) (w : Reference.World) :
  Reference.exists_in path (Reference.create path w) = true.
Proof.
  unfold Reference.create.
  destruct (Reference.exists_in path w) eqn:E; [exact E|].
  unfold Reference.exists_in. cbn [existsb]. now rewrite String.eqb_refl.
Qed.

Lemma exists_in_create_other (path other : string) (w : Reference.World) :
  String.eqb path other = false ->
  Reference.exists_in path (Reference.create other w)
  = Reference.exists_in path w.
Proof.
  intros H. unfold Reference.create.
  destruct (Reference.exists_in other w); [reflexivity|].
  unfold Reference.exists_in. cbn [existsb]. now rewrite H.
Qed.

Lemma C1_retry_witness :
  createWorktree (Reference.backend [] Reference.invalid_reference)
    "/T/repo/.bare" "/T/repo/feature-x" "feature-x"
    (Reference.start ["/T/repo/.bare"])
  = (inr tt,
     mkState ["/T/repo/feature-x"; "/T/repo/.bare"]
       [ExistsSync "/T/repo/feature-x";
        GitRaw "/T/repo/.bare" ["worktree"; "add"; "/T/repo/feature-x"; "feature-x"];
        GitRaw "/T/repo/.bare" ["worktree"; "add"; "-b"; "feature-x"; "/T/repo/feature-x"]])
  /\
  createWorktree (Reference.backend [] Reference.already_checked_out)
    "/T/repo/.bare" "/T/repo/main" "main"
    (Reference.start ["/T/repo/.bare"])
  = (inl (Reference.already_checked_out "main"),
     mkState ["/T/repo/.bare"]
       [ExistsSync "/T/repo/main";
        GitRaw "/T/repo/.bare" ["worktree"; "add"; "/T/repo/main"; "main"]]).
Proof.
  split.
  - exact (proj1 (proj2
      (C1_retry_once_iff_missing_branch
         (Reference.backend [] Reference.invalid_reference)
         "/T/repo/.bare" "/T/repo/feature-x" "feature-x"
         (Reference.start ["/T/repo/.bare"])
         (Reference.invalid_reference "feature-x") ["/T/repo/.bare"]
         eq_refl eq_refl)) eq_refl).
  - exact (proj2 (proj2
      (C1_retry_once_iff_missing_branch
         (Reference.backend [] Reference.already_checked_out)
         "/T/repo/.bare" "/T/repo/main" "main"
         (Reference.start ["/T/repo/.bare"])
         (Reference.already_checked_out "main") ["/T/repo/.bare"]
         eq_refl eq_refl)) eq_refl).
Defined.

(** Scenario B of the tests: the second run on [main] of Hello-World. *)
Lemma C3_second_run_witness :
  let B := Reference.backend ["main"] Reference.invalid_reference in
  let run := action B (Some "https://host/org/Hello-World.git") (Some "main") "/T" in
  let st1 := snd (run (Reference.start [])) in
  fst (run st1)
  = mkRunResult 1 (Some "Worktree path /T/Hello-World/main already exists.") None
  /\ world (snd (run st1)) = world st1
  /\ filter is_raw (trace (snd (run st1))) = filter is_raw (trace st1).
Proof.
  intros B run st1.
  pose (st2 := mkState (world st1)
                 (trace st1 ++ [EnsureDir "/T/Hello-World";
                                ExistsSync "/T/Hello-World/.bare";
                                GitFetch "/T/Hello-World/.bare" "origin"])).
  assert (Hadd : forall args w w',
            In args [["worktree"; "add"; "/T/Hello-World/main"; "main"];
                     ["worktree"; "add"; "-b"; "main"; "/T/Hello-World/main"]] ->
            git_raw B "/T/Hello-World/.bare" args w = (None, w') ->
            Reference.exists_in "/T/Hello-World/main" w' = true).
  { intros args w w' [<- | [<- | []]] H; cbn in H;
      injection H as <-; apply exists_in_create_same. }
  assert (Hdir : preserves (Reference.exists_in "/T/Hello-World/main")
                   (fs_ensureDir B "/T/Hello-World")).
  { intros w. now apply exists_in_create_other. }
  assert (Hfetch : preserves (Reference.exists_in "/T/Hello-World/main")
                     (git_fetch B "/T/Hello-World/.bare" "origin")).
  { intros w. reflexivity. }
  assert (Hclone : preserves (Reference.exists_in "/T/Hello-World/main")
                     (git_clone B "https://host/org/Hello-World.git"
                        "/T/Hello-World/.bare" ["--bare"; "--progress"])).
  { intros w. now apply exists_in_create_other. }
  destruct (proj2 (C3_existing_worktree_is_a_conflict B) _
              (Reference.exists_in "/T/Hello-World/main")
              (Some "https://host/org/Hello-World.git") (Some "main") "/T"
              (mkInputs "https://host/org/Hello-World.git" "main" "/T")
              "Hello-World" (Reference.start []) st1 st2
              (fst (run (Reference.start [])))
              eq_refl eq_refl Hadd (fun w w' H => H) Hdir Hfetch Hclone
              eq_refl eq_refl eq_refl)
    as (Hrun & _ & Hraw & _).
  cbv zeta in Hrun, Hraw. fold run in Hrun. rewrite Hrun.
  split; [reflexivity | split; [reflexivity | exact Hraw]].
Defined.

Lemma C4_clone_then_fetch_witness :
  let B := Reference.backend ["main"] Reference.invalid_reference in
  let run := action B (Some "https://host/org/Hello-World.git") (Some "main") "/T" in
  ensureBareRepository B "https://host/org/Hello-World.git" "/T/Hello-World/.bare"
    (mkState ["/T/Hello-World"] [EnsureDir "/T/Hello-World"])
  = (inr tt,
     mkState ["/T/Hello-World/.bare"; "/T/Hello-World"]
       [EnsureDir "/T/Hello-World"; ExistsSync "/T/Hello-World/.bare";
        GitClone "https://host/org/Hello-World.git" "/T/Hello-World/.bare"
          ["--bare"; "--progress"]])
  /\ exists rest,
       trace (snd (run (Reference.start [])))
       = ([EnsureDir "/T/Hello-World"; ExistsSync "/T/Hello-World/.bare";
           GitClone "https://host/org/Hello-World.git" "/T/Hello-World/.bare"
             ["--bare"; "--progress"]] ++ rest)%list
       /\ filter is_provision rest = [].
Proof.
  intros B run.
  destruct (proj2 (C4_provisioner_runs_once B)
              (Some "https://host/org/Hello-World.git") (Some "main") "/T"
              (mkInputs "https://host/org/Hello-World.git" "main" "/T")
              "Hello-World" (Reference.start []) eq_refl eq_refl eq_refl)
    as (E & T & _).
  split; [exact E | exact T].
Defined.

Lemma C8_blank_branch_witness :
  exists message,
    action (Reference.backend [] Reference.invalid_reference)
      (Some "https://host/org/repo.git") (Some "   ") "/T"
      (Reference.start ["/T"])
    = (mkRunResult 1 (Some message) None, Reference.start ["/T"]).
Proof.
  apply C8_validation_before_effects. right. left. reflexivity.
Defined.

Lemma C5_hello_world_witness :
  resolveRepoName "https://host/org/Hello-World.git" = inr "Hello-World"
  /\ resolveRepoName "https://host/org/Hello-World" = inr "Hello-World".
Proof.
  destruct (proj1 (C5_repo_name_and_layout
                     (Reference.backend [] Reference.invalid_reference))
              "https://host/org" "Hello-World")
    as (Hgit & Hplain).
  - discriminate.
  - reflexivity.
  - split; [exact Hgit|]. apply Hplain.
    intros (stem & _ & E). revert E.
    repeat (destruct stem as [|? stem];
            [discriminate | intros E; injection E as _ E; revert E]).
    destruct stem; discriminate.
Defined.

(** C2. The code does not split the branch argument: the branch that
    [resolveInputs] returns is the trimmed argument, and the action adds
    one worktree named by it. On "dev, test dev release" the branch is that
    very string;
    on "dev test dev" and on the "feature-c,feature-d" of the test suite
    the only worktree path handed to git is the one of the whole
    argument. *)
Theorem C2_branch_argument_is_not_split :
  (forall cwd urlArg branchArg dirArg inputs,
     resolveInputs cwd urlArg branchArg dirArg = inr inputs ->
     exists b, branchArg = Some b /\ branch inputs = trim b)
  /\ resolveInputs "/work" (Some "https://host/org/repo.git")
       (Some "dev, test dev release") "/T"
     = inr (mkInputs "https://host/org/repo.git" "dev, test dev release" "/T")
  /\ filter is_raw
       (trace (snd (action (Reference.backend [] Reference.invalid_reference)
                      (Some "https://host/org/repo.git") (Some "dev test dev")
                      "/T" (Reference.start []))))
     = [GitRaw "/T/repo/.bare"
          ["worktree"; "add"; "/T/repo/dev test dev"; "dev test dev"];
        GitRaw "/T/repo/.bare"
          ["worktree"; "add"; "-b"; "dev test dev"; "/T/repo/dev test dev"]]
  /\ world (snd (action (Reference.backend [] Reference.invalid_reference)
                   (Some "/tmp/remote.git") (Some "feature-c,feature-d")
                   "/T/worktrees" (Reference.start [])))
     = ["/T/worktrees/remote/feature-c,feature-d";
        "/T/worktrees/remote/.bare"; "/T/worktrees/remote"].
Proof.
  split; [|repeat split].
  intros cwd urlArg branchArg dirArg inputs H.
  destruct (blank_dec urlArg) as [Bu | Pu];
    [rewrite resolveInputs_blank in H by (now left); discriminate|].
  destruct (blank_dec branchArg) as [Bb | Pb];
    [rewrite resolveInputs_blank in H by (now right); discriminate|].
  destruct (resolveInputs_present cwd _ _ dirArg Pu Pb)
    as (u & b & _ & Hb & E).
  rewrite E in H. injection H as <-. now exists b.
Qed.

(** C6. With no url and no branch, or with a blank url, the action fails
    with exit code 1 before any call, and the message it reports is the
    usage line, in which the words "Missing required arguments in
    non-interactive mode" do not occur. *)
Theorem C6_missing_arguments_message {World} (B : Backend World)
    (dirOption : string) (st : State World) :
  action B None None dirOption st
  = (mkRunResult 1
       (Some "Usage: git-wt <repo-url> <branch-name> [options]") None, st)
  /\ action B (Some "  ") (Some "main") dirOption st
     = (mkRunResult 1
          (Some "Usage: git-wt <repo-url> <branch-name> [options]") None, st)
  /\ includes
       (toLowerCase "Usage: git-wt <repo-url> <branch-name> [options]")
       "missing required arguments in non-interactive mode" = false.
Proof. repeat split. Qed.

(** The worktree commands of an invocation: none, or the first attempt,
    or the first attempt and the retry, all for the one worktree path of
    the resolved inputs. *)
Lemma action_raw_calls {World} (B : Backend World)
    (urlArg branchArg : option string) (dirOption : string)
    (st : State World) :
  exists ops,
    trace (snd (action B urlArg branchArg dirOption st))
      = (trace st ++ ops)%list
    /\ (filter is_raw ops = [] \/
        exists inputs repoName,
          resolveInputs (process_cwd B) urlArg branchArg dirOption = inr inputs
          /\ resolveRepoName (url inputs) = inr repoName
          /\ let l := layout B (dir inputs) repoName (branch inputs) in
             let first :=
               GitRaw (bareRepoPath l)
                 ["worktree"; "add"; worktreePath l; branch inputs] in
             let retry :=
               GitRaw (bareRepoPath l)
                 ["worktree"; "add"; "-b"; branch inputs; worktreePath l] in
             filter is_raw ops = [first] \/
             filter is_raw ops = [first; retry]).
Proof.
  destruct (resolveInputs (process_cwd B) urlArg branchArg dirOption)
    as [e | inputs] eqn:Hin.
  { exists []. unfold action.
    rewrite (action_body_invalid_inputs B _ _ _ _ _ Hin).
    cbn [snd]. rewrite app_nil_r. split; [reflexivity | now left]. }
  destruct (resolveRepoName (url inputs)) as [e | repoName] eqn:Hname.
  { exists []. unfold action.
    rewrite (action_body_invalid_url B _ _ _ _ _ _ Hin Hname).
    cbn [snd]. rewrite app_nil_r. split; [reflexivity | now left]. }
  pose (l := layout B (dir inputs) repoName (branch inputs)).
  destruct (fst (fs_ensureDir B (repoDir l) (world st))) as [e|] eqn:Hd.
  { exists [EnsureDir (repoDir l)]. unfold action.
    rewrite (action_body_valid B _ _ _ _ _ _ Hin Hname). cbv zeta. fold l.
    unfold bind at 1. unfold ensureDir. rewrite call_eq, Hd.
    split; [reflexivity | now left]. }
  destruct (action_calls B _ _ _ _ _ st Hin Hname Hd) as (E & A & _).
  fold l in E, A. cbv zeta in E, A.
  set (w1 := snd (fs_ensureDir B (repoDir l) (world st))) in *.
  unfold action. rewrite A. unfold bind at 1. rewrite E.
  destruct (fs_existsSync B (bareRepoPath l) w1);
    (destruct (outcome _) as [e|[]];
     [ eexists; cbn [snd trace]; split; [reflexivity | now left] | ]);
    match goal with
    | |- context [bind _ _ ?p] =>
        destruct (createWorktree_calls B (bareRepoPath l) (worktreePath l)
                    (branch inputs) p) as (rest & Ht & Hr);
        unfold bind;
        destruct (createWorktree B (bareRepoPath l) (worktreePath l)
                    (branch inputs) p) as [[e|[]] sc];
        cbn [snd ret trace] in *;
        (eexists; split;
         [ rewrite Ht; rewrite <- app_assoc; reflexivity | ]);
        destruct Hr as [-> | [-> | ->]];
        [ now left
        | right; exists inputs, repoName;
          split; [reflexivity | split; [exact Hname | cbv zeta; now left]]
        | right; exists inputs, repoName;
          split; [reflexivity | split; [exact Hname | cbv zeta; now right]]
        | now left
        | right; exists inputs, repoName;
          split; [reflexivity | split; [exact Hname | cbv zeta; now left]]
        | right; exists inputs, repoName;
          split; [reflexivity | split; [exact Hname | cbv zeta; now right]] ]
    end.
Qed.

(** C7. The action makes one attempt for the whole branch argument: in
    every invocation the worktree commands it issues are at most a first
    attempt and its retry for the one worktree path of the resolved
    inputs. With "feature-a,feature-b", in a world where the worktree of
    feature-a exists, no call concerns feature-a or feature-b: the only
    worktree path looked at and handed to git is the one of the whole
    argument, and the run ends with exit code 0. *)
Theorem C7_one_attempt_per_invocation :
  (forall World (B : Backend World) urlArg branchArg dirOption st,
     exists ops,
       trace (snd (action B urlArg branchArg dirOption st))
         = (trace st ++ ops)%list
       /\ (length (filter is_raw ops) <= 2)%nat)
  /\ action (Reference.backend [] Reference.invalid_reference)
       (Some "/tmp/remote.git") (Some "feature-a,feature-b") "/T"
       (Reference.start ["/T/remote/feature-a"; "/T/remote/.bare"; "/T/remote"])
     = (mkRunResult 0 None
          (Some ("/T/remote/feature-a,feature-b", "feature-a,feature-b")),
        mkState
          ["/T/remote/feature-a,feature-b"; "/T/remote/feature-a";
           "/T/remote/.bare"; "/T/remote"]
          [EnsureDir "/T/remote"; ExistsSync "/T/remote/.bare";
           GitFetch "/T/remote/.bare" "origin";
           ExistsSync "/T/remote/feature-a,feature-b";
           GitRaw "/T/remote/.bare"
             ["worktree"; "add"; "/T/remote/feature-a,feature-b";
              "feature-a,feature-b"];
           GitRaw "/T/remote/.bare"
             ["worktree"; "add"; "-b"; "feature-a,feature-b";
              "/T/remote/feature-a,feature-b"]]).
Proof.
  split; [|reflexivity].
  intros World B urlArg branchArg dirOption st.
  destruct (action_raw_calls B urlArg branchArg dirOption st)
    as (ops & Ht & Hr).
  exists ops. split; [exact Ht|].
  destruct Hr as [-> | (inputs & repoName & _ & _ & [-> | ->])];
    cbn [length]; lia.
Qed.

End CliSpec.

(** ** Facts about the form *)

Module TuiFacts.

Import Tui StringFacts.

(** Two forms with the same fields are the same form. *)
Lemma form_ext (f g : Form) :
  urlValue f = urlValue g -> branchValue f = branchValue g ->
  dirValue f = dirValue g -> message f = message g ->
  focusIndex f = focusIndex g -> settled f = settled g ->
  promise f = promise g -> effects f = effects g ->
  f = g.
Proof.
  destruct f, g. cbn. intros. subst. reflexivity.
Qed.

Lemma keeps_promise_refl f : keeps_promise f f.
Proof. repeat split. Qed.

Lemma keeps_promise_trans f g h :
  keeps_promise f g -> keeps_promise g h -> keeps_promise f h.
Proof.
  unfold keeps_promise. intros (A1 & A2 & A3) (B1 & B2 & B3).
  repeat split; congruence.
Qed.

Lemma settlements_emit e f :
  settlements (emit e f)
  = (settlements f + if is_settlement e then 1 else 0)%nat.
Proof.
  unfold settlements, emit. cbn [effects].
  rewrite filter_app, List.length_app. cbn [filter].
  now destruct (is_settlement e).
Qed.

Lemma emit_keeps e f : is_settlement e = false -> keeps_promise f (emit e f).
Proof.
  intros H. repeat split. rewrite settlements_emit, H. lia.
Qed.

Lemma focus_keeps w f : keeps_promise f (focus w f).
Proof.
  unfold focus. destruct (is_textbox w).
  - eapply keeps_promise_trans; apply emit_keeps; reflexivity.
  - now apply emit_keeps.
Qed.

Lemma focusAt_keeps i f : keeps_promise f (focusAt i f).
Proof.
  unfold focusAt. destruct (at_index _) as [w|]; [|apply keeps_promise_refl].
  eapply keeps_promise_trans; [|now apply emit_keeps].
  eapply keeps_promise_trans; [|apply focus_keeps].
  repeat split.
Qed.

Lemma setError_keeps content f : keeps_promise f (setError content f).
Proof.
  unfold setError.
  eapply keeps_promise_trans; [|now apply emit_keeps].
  eapply keeps_promise_trans; [|now apply emit_keeps].
  repeat split.
Qed.

Lemma set_value_keeps w v f : keeps_promise f (set_value w v f).
Proof. destruct w; repeat split. Qed.

Lemma consistent_keeps f g :
  keeps_promise f g -> consistent f -> consistent g.
Proof.
  unfold keeps_promise, consistent.
  intros (-> & -> & ->). exact id.
Qed.

(** A settled form ignores [settle]. *)
Lemma settle_settled handler f : settled f = true -> settle handler f = f.
Proof. unfold settle. now intros ->. Qed.

Lemma cancel_unsettled f :
  settled f = false -> promise f = Pending ->
  cancel f =
  mkForm (urlValue f) (branchValue f) (dirValue f) (message f) (focusIndex f)
    true (Rejected (JsError "Cancelled by user."))
    (effects f ++ [Destroy; Reject (JsError "Cancelled by user.")]).
Proof.
  intros Hs Hp. unfold cancel, settle. rewrite Hs.
  unfold reject, cleanup, set_settled, emit, set_promise.
  cbn [urlValue branchValue dirValue message focusIndex settled promise effects].
  rewrite Hp. now rewrite <- app_assoc.
Qed.

Lemma resolve_unsettled v f :
  settled f = false -> promise f = Pending ->
  settle (resolve v) f =
  mkForm (urlValue f) (branchValue f) (dirValue f) (message f) (focusIndex f)
    true (Fulfilled v) (effects f ++ [Destroy; Resolve v]).
Proof.
  intros Hs Hp. unfold settle. rewrite Hs.
  unfold resolve, cleanup, set_settled, emit, set_promise.
  cbn [urlValue branchValue dirValue message focusIndex settled promise effects].
  rewrite Hp. now rewrite <- app_assoc.
Qed.

Lemma settlements_two_more f e1 e2 url branch dir message focusIndex s p :
  settlements
    (mkForm url branch dir message focusIndex s p (effects f ++ [e1; e2]))
  = (settlements f
     + (if is_settlement e1 then 1 else 0)
     + (if is_settlement e2 then 1 else 0))%nat.
Proof.
  unfold settlements. cbn [effects].
  rewrite filter_app, List.length_app. cbn [filter].
  destruct (is_settlement e1), (is_settlement e2); simpl; lia.
Qed.

Lemma cancel_consistent f : consistent f -> consistent (cancel f).
Proof.
  intros H. destruct (settled f) eqn:Hs.
  - unfold cancel. now rewrite settle_settled.
  - destruct H as (H0 & _ & _). destruct (H0 Hs) as [Hp Hn].
    rewrite cancel_unsettled by assumption.
    repeat split; cbn [settled promise]; try discriminate.
    rewrite settlements_two_more, Hn. reflexivity.
Qed.

Lemma trimmed_filled s : is_empty (trim s) = false ->
  trim (trim s) = trim s /\ trim s <> "".
Proof.
  intros H. split; [apply trim_idem | now apply is_empty_false].
Qed.

Lemma submit_consistent f : consistent f -> consistent (submit f).
Proof.
  intros H. unfold submit.
  destruct (is_empty (trim (urlValue f))) eqn:Hu.
  { eapply consistent_keeps; [|exact H].
    eapply keeps_promise_trans; [apply setError_keeps | apply focusAt_keeps]. }
  destruct (is_empty (trim (branchValue f))) eqn:Hb.
  { eapply consistent_keeps; [|exact H].
    eapply keeps_promise_trans; [apply setError_keeps | apply focusAt_keeps]. }
  destruct (is_empty (trim (dirValue f))) eqn:Hd.
  { eapply consistent_keeps; [|exact H].
    eapply keeps_promise_trans; [apply setError_keeps | apply focusAt_keeps]. }
  destruct (settled f) eqn:Hs.
  - now rewrite settle_settled.
  - destruct H as (H0 & _ & _). destruct (H0 Hs) as [Hp Hn].
    rewrite resolve_unsettled by assumption.
    repeat split; cbn [settled promise]; try discriminate.
    + rewrite settlements_two_more, Hn. reflexivity.
    + injection H as <-. apply trim_idem.
    + injection H as <-. now apply is_empty_false.
    + injection H as <-. apply trim_idem.
    + injection H as <-. now apply is_empty_false.
    + injection H as <-. apply trim_idem.
    + injection H as <-. now apply is_empty_false.
Qed.

Lemma handle_consistent e f : consistent f -> consistent (handle e f).
Proof.
  intros H.
  destruct e as [[] | [] | [] | | w v]; cbn [handle];
    try exact H;
    try (now apply cancel_consistent);
    try (now apply submit_consistent);
    try (eapply consistent_keeps; [apply focusAt_keeps | exact H]).
  eapply consistent_keeps; [apply set_value_keeps | exact H].
Qed.

Lemma start_consistent cwd initial :
  consistent (collectInputsWithTui cwd initial).
Proof.
  unfold collectInputsWithTui.
  eapply consistent_keeps; [apply focusAt_keeps|].
  repeat split; cbn [settled promise]; discriminate.
Qed.

Lemma after_consistent es f : consistent f -> consistent (after es f).
Proof.
  revert f; induction es as [|e es IH]; intros f H; [exact H|].
  apply IH. now apply handle_consistent.
Qed.

(** Once the flag is set, no event changes the promise. *)
Lemma handle_settled e f :
  settled f = true -> keeps_promise f (handle e f).
Proof.
  intros Hs.
  destruct e as [[] | [] | [] | | w v]; cbn [handle];
    try apply keeps_promise_refl;
    try apply focusAt_keeps;
    try apply set_value_keeps;
    try (unfold cancel; rewrite settle_settled by exact Hs;
         apply keeps_promise_refl);
    unfold submit;
    repeat match goal with
           | |- context [if ?b then _ else _] => destruct b
           end;
    try (eapply keeps_promise_trans;
         [apply setError_keeps | apply focusAt_keeps]);
    rewrite settle_settled by exact Hs; apply keeps_promise_refl.
Qed.

Lemma after_settled es f :
  settled f = true -> keeps_promise f (after es f).
Proof.
  revert f; induction es as [|e es IH]; intros f Hs;
    [apply keeps_promise_refl|].
  cbn [after fold_left].
  pose proof (handle_settled e f Hs) as K.
  eapply keeps_promise_trans; [exact K|].
  apply IH. destruct K as (-> & _). exact Hs.
Qed.

End TuiFacts.

(** ** The promise of the form *)

Module TuiSpec.

Import Tui StringFacts TuiFacts.

Lemma focusAt_on (i n : Z) (w : Widget) (f : Form) :
  Z.rem (i + Z.of_nat (length focusables)) (Z.of_nat (length focusables)) = n ->
  at_index n = Some w ->
  focusAt i f = emit Render (focus w (set_focusIndex n f)).
Proof. intros Hn Hw. unfold focusAt. now rewrite Hn, Hw. Qed.

Lemma refuse_field content (i : Z) (w : Widget) (f : Form) :
  Z.rem (i + Z.of_nat (length focusables)) (Z.of_nat (length focusables)) = i ->
  at_index i = Some w ->
  is_textbox w = true ->
  focusAt i (setError content f) = refused content i w f.
Proof.
  intros Hn Hw Ht. rewrite (focusAt_on i i w _ Hn Hw).
  unfold focus. rewrite Ht.
  apply form_ext; unfold refused, setError;
    cbn [urlValue branchValue dirValue message focusIndex settled promise
         effects emit set_message set_focusIndex];
    try reflexivity.
  now rewrite <- !app_assoc.
Qed.

Lemma refuse_url content f :
  focusAt 0 (setError content f) = refused content 0 urlInput f.
Proof. now apply refuse_field. Qed.

Lemma refuse_branch content f :
  focusAt 1 (setError content f) = refused content 1 branchInput f.
Proof. now apply refuse_field. Qed.

Lemma refuse_dir content f :
  focusAt 2 (setError content f) = refused content 2 dirInput f.
Proof. now apply refuse_field. Qed.




(** C10. In every form reached from the start by events, [resolve] and
    [reject] were called at most once in all. Once the promise is settled
    no later event changes it or calls them again. A fulfilled promise
    holds a url, a branch and a directory that are not empty after
    trimming. A [submit] that finds the url, else the branch, else the
    directory blank shows the matching error and moves the focus to that
    field, and leaves the promise as it was; with the three fields filled
    and the promise pending, it fulfils the promise with the trimmed
    values. *)
Theorem C10_promise_settles_once (cwd : string) (initial : PartialInputs)
    (es later : list Event) :
  let f := after es (collectInputsWithTui cwd initial) in
  let url := trim (urlValue f) in
  let branch := trim (branchValue f) in
  let dir := trim (dirValue f) in
  (settlements f <= 1)%nat
  /\ (promise f <> Pending ->
      promise (after later f) = promise f /\
      settlements (after later f) = settlements f)
  /\ (forall v,
        promise f = Fulfilled v ->
        trim (Tui.url v) <> "" /\ trim (Tui.branch v) <> "" /\
        trim (Tui.dir v) <> "")
  /\ (url = "" ->
      submit f = refused "Repository URL is required." 0 urlInput f)
  /\ (url <> "" -> branch = "" ->
      submit f = refused "Branch is required." 1 branchInput f)
  /\ (url <> "" -> branch <> "" -> dir = "" ->
      submit f = refused "Base directory is required." 2 dirInput f)
  /\ (url <> "" -> branch <> "" -> dir <> "" -> settled f = false ->
      promise (submit f) = Fulfilled (mkWorkspaceInputs url branch dir) /\
      effects (submit f)
      = (effects f
         ++ [Destroy; Resolve (mkWorkspaceInputs url branch dir)])%list).
Proof.
  intros f url branch dir.
  pose proof (after_consistent es _ (start_consistent cwd initial))
    as (H0 & H1 & Hv).
  fold f in H0, H1, Hv.
  split; [|split; [|split; [|split; [|split; [|split]]]]].
  - destruct (settled f) eqn:Hs.
    + destruct (H1 eq_refl) as [_ ->]. lia.
    + destruct (H0 eq_refl) as [_ ->]. lia.
  - intros Hp.
    assert (Hs : settled f = true).
    { destruct (settled f); [reflexivity|]. now destruct (H0 eq_refl). }
    destruct (after_settled later f Hs) as (_ & Hq & Hn). now split.
  - intros v Hf.
    destruct (Hv v Hf) as ((Eu & Nu) & (Eb & Nb) & (Ed & Nd)).
    rewrite Eu, Eb, Ed. split; [exact Nu | split; [exact Nb | exact Nd]].
  - intros Hu. unfold submit. fold url. rewrite Hu. apply refuse_url.
  - intros Hu Hb. unfold submit. fold url branch.
    apply is_empty_false in Hu. rewrite Hu, Hb. apply refuse_branch.
  - intros Hu Hb Hd. unfold submit. fold url branch dir.
    apply is_empty_false in Hu, Hb. rewrite Hu, Hb, Hd. apply refuse_dir.
  - intros Hu Hb Hd Hs. unfold submit. fold url branch dir.
    apply is_empty_false in Hu, Hb, Hd. rewrite Hu, Hb, Hd.
    destruct (H0 Hs) as [Hp _].
    rewrite (resolve_unsettled _ f Hs Hp). now split.
Qed.

Lemma C10_submit_then_cancel_witness :
  let f := after [Edit urlInput " https://host/org/repo.git ";
                  Edit branchInput "main"; EnterIn dirInput]
             (collectInputsWithTui "/work" (mkPartialInputs None None None)) in
  promise f
  = Fulfilled (mkWorkspaceInputs "https://host/org/repo.git" "main" "/work")
  /\ promise (after [ScreenKey KeyEscape; Press cancelButton; FormSubmit] f)
     = promise f
  /\ settlements (after [ScreenKey KeyEscape; Press cancelButton; FormSubmit] f)
     = settlements f.
Proof.
  intros f. split; [reflexivity|].
  destruct (C10_promise_settles_once "/work" (mkPartialInputs None None None)
              [Edit urlInput " https://host/org/repo.git ";
               Edit branchInput "main"; EnterIn dirInput]
              [ScreenKey KeyEscape; Press cancelButton; FormSubmit])
    as (_ & Hlater & _).
  apply Hlater. discriminate.
Defined.

End TuiSpec.

(** ** More about the command-line program *)

Module CliMore.

Import Cli StringFacts CliFacts More.

(** *** [resolveInputs] *)

Lemma optional_trim_idem (arg : option string) :
  optional_trim (optional_trim arg) = optional_trim arg.
Proof. destruct arg as [s|]; simpl; [now rewrite trim_idem | reflexivity]. Qed.

Lemma resolveInputs_trimmed cwd urlArg branchArg dirArg :
  resolveInputs cwd (optional_trim urlArg) (optional_trim branchArg)
    (trim dirArg)
  = resolveInputs cwd urlArg branchArg dirArg.
Proof.
  unfold resolveInputs. now rewrite !optional_trim_idem, trim_idem.
Qed.

(** X1. [resolveInputs] accepts exactly the calls whose url and branch are
    both present and not blank; the inputs it returns are the trimmed url
    and branch, with the trimmed directory, or the current directory when
    the directory option is blank. Every other call is refused with the
    usage line. *)
Theorem resolveInputs_accepts_iff (cwd : string)
    (urlArg branchArg : option string) (dirArg : string) :
  (forall inputs,
     resolveInputs cwd urlArg branchArg dirArg = inr inputs <->
     exists u b,
       urlArg = Some u /\ branchArg = Some b /\
       trim u <> "" /\ trim b <> "" /\
       url inputs = trim u /\ branch inputs = trim b /\
       (trim dirArg = "" -> dir inputs = cwd) /\
       (trim dirArg <> "" -> dir inputs = trim dirArg))
  /\ (forall e,
        resolveInputs cwd urlArg branchArg dirArg = inl e ->
        e = JsError "Usage: git-wt <repo-url> <branch-name> [options]").
Proof.
  split.
  - intros inputs. split.
    + intros H.
      destruct (blank_dec urlArg) as [Bu | Pu];
        [rewrite resolveInputs_blank in H by (now left); discriminate|].
      destruct (blank_dec branchArg) as [Bb | Pb];
        [rewrite resolveInputs_blank in H by (now right); discriminate|].
      destruct (resolveInputs_present cwd _ _ dirArg Pu Pb)
        as (u & b & -> & -> & E).
      rewrite E in H. injection H as <-. exists u, b. cbn [url branch dir].
      repeat split; try assumption.
      * intros ->. reflexivity.
      * intros N. apply is_empty_false in N. now rewrite N.
    + intros (u & b & -> & -> & Nu & Nb & Eu & Eb & Dc & Dt).
      destruct (resolveInputs_present cwd (Some u) (Some b) dirArg Nu Nb)
        as (u' & b' & Hu & Hb & E).
      injection Hu as <-. injection Hb as <-. rewrite E. f_equal.
      destruct inputs as [iu ib id]. cbn [url branch dir] in *. subst iu ib.
      f_equal. destruct (trim dirArg) eqn:T; cbn [is_empty].
      * symmetry. now apply Dc.
      * symmetry. now apply Dt.
  - intros e H. unfold resolveInputs in H.
    destruct (falsy (optional_trim urlArg) || falsy (optional_trim branchArg));
      [now injection H as <-|].
    destruct (optional_trim urlArg), (optional_trim branchArg);
      try discriminate; now injection H as <-.
Qed.

(** X2. White space around the url, the branch and the directory option
    makes no difference: the action run on the trimmed arguments returns
    the same result and leaves the same state. *)
Theorem action_ignores_surrounding_space {World} (B : Backend World)
    (urlArg branchArg : option string) (dirOption : string)
    (st : State World) :
  action B (optional_trim urlArg) (optional_trim branchArg) (trim dirOption) st
  = action B urlArg branchArg dirOption st.
Proof.
  unfold action, action_body. now rewrite resolveInputs_trimmed.
Qed.

(** *** [resolveRepoName] *)

Lemma git_suffix_then_end_true (rest : string) :
  git_suffix_then_end rest = true -> rest = ".git" \/ rest = "".
Proof.
  unfold git_suffix_then_end. rewrite orb_true_iff, String.eqb_eq, is_empty_true.
  exact id.
Qed.

(** What the lazy group returns is what it had taken and a slash-free
    piece of the rest, the remainder being empty or [.git]. *)
Lemma lazy_group_sound (rest taken g : string) :
  lazy_group taken rest = Some g ->
  exists a,
    g = taken ++ a /\ has_char slash a = false /\
    (rest = a \/ rest = a ++ ".git").
Proof.
  revert taken; induction rest as [|c rest IH]; intros taken H.
  - cbn in H. injection H as <-. exists "". rewrite append_nil_r. auto.
  - cbn [lazy_group] in H.
    destruct (git_suffix_then_end (String c rest)) eqn:G.
    + injection H as <-. exists "". rewrite append_nil_r.
      destruct (git_suffix_then_end_true _ G) as [E | E]; [|discriminate].
      repeat split. right. exact E.
    + destruct (Ascii.eqb c slash) eqn:Hc; [discriminate|].
      destruct (IH _ H) as (a & -> & Ha & Hr).
      exists (String c a). rewrite append_assoc. cbn [append has_char].
      rewrite Hc, Ha. repeat split.
      destruct Hr as [-> | ->]; [now left | now right].
Qed.

Lemma match_here_sound (s g : string) :
  match_here s = Some g ->
  g <> "" /\ has_char slash g = false /\ (s = g \/ s = g ++ ".git").
Proof.
  destruct s as [|c rest]; cbn [match_here]; [discriminate|].
  destruct (Ascii.eqb c slash) eqn:Hc; [discriminate|].
  intros H. destruct (lazy_group_sound _ _ _ H) as (a & -> & Ha & Hr).
  cbn [append has_char]. rewrite Hc, Ha.
  repeat split; [discriminate|].
  destruct Hr as [-> | ->]; [now left | now right].
Qed.

Lemma match_repo_name_sound (url g : string) :
  match_repo_name url = Some g ->
  exists prefix s, url = prefix ++ "/" ++ s /\ match_here s = Some g.
Proof.
  induction url as [|c url IH]; cbn [match_repo_name]; [discriminate|].
  destruct (Ascii.eqb c slash) eqn:Hc.
  - apply Ascii.eqb_eq in Hc. subst c.
    destruct (match_here url) as [g'|] eqn:Hm.
    + intros H. injection H as <-. now exists "", url.
    + intros H. destruct (IH H) as (prefix & s & -> & Hs).
      now exists (String slash prefix), s.
  - intros H. destruct (IH H) as (prefix & s & -> & Hs).
    now exists (String c prefix), s.
Qed.

(** X3. A repository name that [resolveRepoName] returns is not empty, has
    no slash, and is what follows the last slash of the url, up to one
    [.git] at its end. *)
Theorem resolveRepoName_sound (url name : string) :
  resolveRepoName url = inr name ->
  name <> "" /\ has_char slash name = false /\
  exists prefix,
    url = prefix ++ "/" ++ name \/ url = prefix ++ "/" ++ name ++ ".git".
Proof.
  unfold resolveRepoName.
  destruct (match_repo_name url) as [g|] eqn:H; [|discriminate].
  destruct (is_empty g); [discriminate|].
  intros E. injection E as <-.
  destruct (match_repo_name_sound _ _ H) as (prefix & s & -> & Hs).
  destruct (match_here_sound _ _ Hs) as (Hne & Hslash & Hr).
  repeat split; [exact Hne | exact Hslash |].
  exists prefix. destruct Hr as [-> | ->]; [now left | now right].
Qed.

Lemma resolveRepoName_sound_witness :
  "repo" <> "" /\ has_char slash "repo" = false /\
  exists prefix,
    "git@github.com:org/repo.git" = prefix ++ "/" ++ "repo" \/
    "git@github.com:org/repo.git" = prefix ++ "/" ++ "repo" ++ ".git".
Proof.
  exact (resolveRepoName_sound "git@github.com:org/repo.git" "repo" eq_refl).
Defined.

(** X4. The edges of the last segment. A url that ends with a slash, and
    the empty url, are refused: the expression needs at least one
    character after the last slash. A last segment that is exactly [.git]
    is returned whole: the suffix is stripped only after a stem that is
    not empty. *)
Theorem resolveRepoName_edge_segments (prefix : string) :
  resolveRepoName (prefix ++ "/")
  = inl (JsError "Invalid Git URL. Could not extract repository name.")
  /\ resolveRepoName ""
     = inl (JsError "Invalid Git URL. Could not extract repository name.")
  /\ resolveRepoName (prefix ++ "/.git") = inr ".git".
Proof.
  split; [|split; [reflexivity|]].
  - unfold resolveRepoName.
    change (prefix ++ "/") with (prefix ++ "/" ++ "").
    now rewrite match_repo_name_last_segment.
  - unfold resolveRepoName.
    change (prefix ++ "/.git") with (prefix ++ "/" ++ ".git").
    now rewrite match_repo_name_last_segment.
Qed.

(** *** The earlier entry point *)

(** X5. The earlier entry point tested the match where the present one
    tests its first group: both accept the same urls and extract the same
    name, because the group is never empty. *)
Theorem repo_name_as_before (url : string) :
  resolveRepoName url = earlier_repo_name url.
Proof.
  unfold resolveRepoName, earlier_repo_name.
  destruct (match_repo_name url) as [g|] eqn:H; [|reflexivity].
  destruct (match_repo_name_sound _ _ H) as (prefix & s & _ & Hs).
  destruct (match_here_sound _ _ Hs) as (Hne & _).
  apply is_empty_false in Hne. now rewrite Hne.
Qed.

Lemma includes_folds (text phrase : string) :
  includes text phrase = true ->
  includes (toLowerCase text) (toLowerCase phrase) = true.
Proof.
  rewrite !includes_spec. intros (pre & post & ->).
  exists (toLowerCase pre), (toLowerCase post).
  now rewrite !toLowerCase_app.
Qed.

(** X6. Every error message for which the earlier entry point retried
    with [-b] makes the present one retry too; on a message without upper
    case the two tests agree. The present test only adds the messages that
    differ by case. *)
Theorem missing_branch_test_widened (message : string) :
  (earlier_missing_branch_test message = true ->
   isMissingBranchError (JsError message) = true)
  /\ (toLowerCase message = message ->
      isMissingBranchError (JsError message)
      = earlier_missing_branch_test message).
Proof.
  unfold earlier_missing_branch_test, isMissingBranchError, some,
    MISSING_BRANCH_PATTERNS.
  cbn [existsb toErrorMessage]. rewrite orb_false_r. split.
  - rewrite !orb_true_iff. intros [H | H]; [left | right];
      exact (includes_folds _ _ H).
  - intros ->. reflexivity.
Qed.

(** *** [createWorktree] and the action *)

(** X7. [createWorktree] returns without throwing exactly when the
    worktree path was free and either the first [worktree add] succeeded,
    or it failed with a missing-branch error and the retry with [-b]
    succeeded. *)
Theorem createWorktree_returns_iff {World} (B : Backend World)
    (bareRepoPath worktreePath branch : string) (st : State World) :
  let r1 :=
    git_raw B bareRepoPath ["worktree"; "add"; worktreePath; branch]
      (world st) in
  let r2 :=
    git_raw B bareRepoPath ["worktree"; "add"; "-b"; branch; worktreePath]
      (snd r1) in
  fst (createWorktree B bareRepoPath worktreePath branch st) = inr tt <->
  fs_existsSync B worktreePath (world st) = false /\
  (fst r1 = None \/
   exists e,
     fst r1 = Some e /\ isMissingBranchError e = true /\ fst r2 = None).
Proof.
  intros r1 r2.
  destruct (fs_existsSync B worktreePath (world st)) eqn:Hx.
  - rewrite createWorktree_conflict by exact Hx. cbn [fst].
    split; [discriminate | intros [H _]; discriminate].
  - rewrite createWorktree_free by exact Hx.
    unfold try_catch, raw. rewrite call_eq. unfold called, seen.
    cbn [world trace]. fold r1.
    destruct (fst r1) as [e|] eqn:H1; cbn [outcome].
    + destruct (isMissingBranchError e) eqn:Hm; cbn [negb].
      * rewrite call_eq. unfold called. cbn [world trace fst]. fold r2.
        destruct (fst r2) as [e2|] eqn:H2; cbn [outcome].
        -- split; [discriminate|].
           intros [_ [H | (e' & He & _ & H)]]; discriminate.
        -- split; [|reflexivity]. intros _. split; [reflexivity|].
           right. now exists e.
      * cbn [throw fst]. split; [discriminate|].
        intros [_ [H | (e' & He & Hm' & _)]]; [discriminate|].
        injection He as <-. congruence.
    + cbn [fst]. split; [|reflexivity]. intros _. split; [reflexivity|].
      now left.
Qed.

Lemma bind_inr_inv {World A C} (m : @M World A) (k : A -> @M World C)
    st c st' :
  bind m k st = (inr c, st') ->
  exists a st1, m st = (inr a, st1) /\ k a st1 = (inr c, st').
Proof.
  unfold bind. destruct (m st) as [[e|a] st1]; [discriminate|].
  intros H. now exists a, st1.
Qed.

(** The calls of a creation that succeeded. *)
Lemma createWorktree_success_trace {World} (B : Backend World)
    (bareRepoPath worktreePath branch : string) (st st' : State World) :
  createWorktree B bareRepoPath worktreePath branch st = (inr tt, st') ->
  let first := GitRaw bareRepoPath ["worktree"; "add"; worktreePath; branch] in
  let retry :=
    GitRaw bareRepoPath ["worktree"; "add"; "-b"; branch; worktreePath] in
  trace st' = (trace st ++ [ExistsSync worktreePath; first])%list \/
  trace st' = (trace st ++ [ExistsSync worktreePath; first; retry])%list.
Proof.
  intros H first retry. revert H.
  destruct (fs_existsSync B worktreePath (world st)) eqn:Hx.
  - rewrite createWorktree_conflict by exact Hx. discriminate.
  - rewrite createWorktree_free by exact Hx.
    unfold try_catch, raw. rewrite call_eq.
    destruct (outcome _) as [e|[]].
    + destruct (negb (isMissingBranchError e)); [discriminate|].
      rewrite call_eq. intros H. injection H as _ <-. right.
      unfold called, seen. cbn [trace]. now rewrite <- !app_assoc.
    + intros H. injection H as <-. left.
      unfold called, seen. cbn [trace]. now rewrite <- !app_assoc.
Qed.

(** X8. A run that ends with exit code 0 had valid inputs and issued, in
    this order and nothing else: the [ensureDir] of the repository
    directory, the look at the bare path, one fetch or clone, the look at
    the worktree path, the first [worktree add] and, possibly, its retry.
    Its summary shows the worktree path and the trimmed branch. *)
Theorem action_success_path {World} (B : Backend World)
    (urlArg branchArg : option string) (dirOption : string)
    (st st' : State World) (r : RunResult) :
  action B urlArg branchArg dirOption st = (r, st') ->
  exitCode r = 0%Z ->
  exists inputs repoName,
    resolveInputs (process_cwd B) urlArg branchArg dirOption = inr inputs /\
    resolveRepoName (url inputs) = inr repoName /\
    let l := layout B (dir inputs) repoName (branch inputs) in
    let first :=
      GitRaw (bareRepoPath l)
        ["worktree"; "add"; worktreePath l; branch inputs] in
    let retry :=
      GitRaw (bareRepoPath l)
        ["worktree"; "add"; "-b"; branch inputs; worktreePath l] in
    r = mkRunResult 0 None (Some (worktreePath l, branch inputs)) /\
    exists provision,
      (provision = GitFetch (bareRepoPath l) "origin" \/
       provision =
         GitClone (url inputs) (bareRepoPath l) ["--bare"; "--progress"]) /\
      (trace st'
       = (trace st
          ++ [EnsureDir (repoDir l); ExistsSync (bareRepoPath l); provision;
              ExistsSync (worktreePath l); first])%list
       \/
       trace st'
       = (trace st
          ++ [EnsureDir (repoDir l); ExistsSync (bareRepoPath l); provision;
              ExistsSync (worktreePath l); first; retry])%list).
Proof.
  intros Hrun Hexit.
  destruct (resolveInputs (process_cwd B) urlArg branchArg dirOption)
    as [e | inputs] eqn:Hin.
  { unfold action in Hrun.
    rewrite (action_body_invalid_inputs B _ _ _ _ _ Hin) in Hrun.
    injection Hrun as <- _. discriminate. }
  destruct (resolveRepoName (url inputs)) as [e | repoName] eqn:Hname.
  { unfold action in Hrun.
    rewrite (action_body_invalid_url B _ _ _ _ _ _ Hin Hname) in Hrun.
    injection Hrun as <- _. discriminate. }
  exists inputs, repoName. split; [reflexivity | split; [exact Hname|]].
  intros l first retry.
  unfold action in Hrun.
  rewrite (action_body_valid B _ _ _ _ _ _ Hin Hname) in Hrun.
  cbv zeta in Hrun. fold l in Hrun.
  match type of Hrun with
  | (let (_, _) := ?body in _) = _ =>
      destruct body as [[e | done] sf] eqn:Hbody;
        [injection Hrun as <- _; discriminate|]
  end.
  injection Hrun as <- <-.
  apply bind_inr_inv in Hbody as ([] & sa & Ha & Hbody).
  apply bind_inr_inv in Hbody as ([] & sb & Hb & Hbody).
  apply bind_inr_inv in Hbody as ([] & sc & Hc & Hbody).
  unfold ret in Hbody. injection Hbody as <- <-.
  split; [reflexivity|].
  assert (Hprov : bind (ensureDir B (repoDir l))
                    (fun _ => ensureBareRepository B (url inputs)
                                (bareRepoPath l)) st = (inr tt, sb)).
  { now rewrite (bind_ok _ _ _ _ _ Ha). }
  destruct (createWorktree_success_trace B _ _ _ _ _ Hc) as [T | T];
    destruct (provision_ok B _ _ _ _ _ Hprov) as [[_ E] | [_ E]];
    eexists; (split; [| rewrite T, E; cbn [trace]; rewrite <- app_assoc;
                        first [now left | now right]]);
    first [now left | now right].
Qed.

Lemma action_success_path_witness :
  exists provision,
    trace (snd (action (Reference.backend ["main"] Reference.invalid_reference)
                  (Some " https://host/org/Hello-World.git ") (Some "main ")
                  "/T" (Reference.start [])))
    = [EnsureDir "/T/Hello-World"; ExistsSync "/T/Hello-World/.bare";
       provision; ExistsSync "/T/Hello-World/main";
       GitRaw "/T/Hello-World/.bare"
         ["worktree"; "add"; "/T/Hello-World/main"; "main"]].
Proof.
  destruct (action_success_path
              (Reference.backend ["main"] Reference.invalid_reference)
              (Some " https://host/org/Hello-World.git ") (Some "main ") "/T"
              (Reference.start [])
              (snd (action (Reference.backend ["main"] Reference.invalid_reference)
                      (Some " https://host/org/Hello-World.git ")
                      (Some "main ") "/T" (Reference.start [])))
              (fst (action (Reference.backend ["main"] Reference.invalid_reference)
                      (Some " https://host/org/Hello-World.git ")
                      (Some "main ") "/T" (Reference.start [])))
              eq_refl eq_refl)
    as (inputs & repoName & Hin & Hname & _ & provision & _ & T).
  vm_compute in Hin. injection Hin as <-.
  vm_compute in Hname. injection Hname as <-.
  exists provision.
  destruct T as [T | T]; vm_compute in T |- *; [exact T | discriminate T].
Defined.

(** X9. When [ensureDir] of the repository directory rejects, the action
    reports the message of that error with exit code 1, and the
    [ensureDir] is the only call of the run: the bare path is not looked
    at and git is not called. *)
Theorem action_ensureDir_failure {World} (B : Backend World)
    (urlArg branchArg : option string) (dirOption : string)
    (inputs : Inputs) (repoName : string) (st : State World)
    (error : JsValue) :
  resolveInputs (process_cwd B) urlArg branchArg dirOption = inr inputs ->
  resolveRepoName (url inputs) = inr repoName ->
  let l := layout B (dir inputs) repoName (branch inputs) in
  fst (fs_ensureDir B (repoDir l) (world st)) = Some error ->
  action B urlArg branchArg dirOption st
  = (mkRunResult 1 (Some (toErrorMessage error)) None,
     mkState (snd (fs_ensureDir B (repoDir l) (world st)))
       (trace st ++ [EnsureDir (repoDir l)])).
Proof.
  intros Hin Hname l Hd. unfold action.
  rewrite (action_body_valid B _ _ _ _ _ _ Hin Hname). cbv zeta. fold l.
  unfold bind at 1. unfold ensureDir. rewrite call_eq, Hd. reflexivity.
Qed.

Lemma action_ensureDir_failure_witness :
  action (read_only (JsOther "EACCES: permission denied, mkdir '/T/repo'"))
    (Some "https://host/org/repo.git") (Some "main") "/T"
    (Reference.start [])
  = (mkRunResult 1 (Some "EACCES: permission denied, mkdir '/T/repo'") None,
     mkState [] [EnsureDir "/T/repo"]).
Proof.
  exact (action_ensureDir_failure
           (read_only (JsOther "EACCES: permission denied, mkdir '/T/repo'"))
           (Some "https://host/org/repo.git") (Some "main") "/T"
           (mkInputs "https://host/org/repo.git" "main" "/T") "repo"
           (Reference.start [])
           (JsOther "EACCES: permission denied, mkdir '/T/repo'")
           eq_refl eq_refl eq_refl).
Defined.

End CliMore.

(** ** More about the form *)

Module TuiMore.

Import Tui StringFacts TuiFacts More.

(** *** The fields that a step leaves alone *)

Lemma focusAt_fields (i : Z) (f : Form) :
  focusAt i f =
  mkForm (urlValue f) (branchValue f) (dirValue f) (message f)
    (focusIndex (focusAt i f)) (settled f) (promise f)
    (effects (focusAt i f)).
Proof.
  apply form_ext; try reflexivity;
    unfold focusAt; destruct (at_index _) as [w|]; try reflexivity;
    unfold focus; destruct (is_textbox w); reflexivity.
Qed.

Lemma at_index_in_range (n : Z) (w : Widget) :
  at_index n = Some w -> in_range n.
Proof.
  unfold at_index, in_range. destruct (Z.ltb_spec n 0) as [Hn | Hn];
    [discriminate|].
  intros Hw. assert (L : (Z.to_nat n < List.length focusables)%nat).
  { apply nth_error_Some. congruence. }
  lia.
Qed.

Lemma in_range_at_index (n : Z) :
  in_range n -> exists w, at_index n = Some w.
Proof.
  unfold in_range, at_index. intros [H0 H1].
  destruct (Z.ltb_spec n 0) as [Hn | Hn]; [lia|].
  destruct (nth_error focusables (Z.to_nat n)) as [w|] eqn:E; [now exists w|].
  apply nth_error_None in E. lia.
Qed.

(** [focusAt] on an index from -5 up lands on the index modulo 5. *)
Lemma focusIndex_focusAt (i : Z) (f : Form) :
  (- 5 <= i)%Z ->
  focusIndex (focusAt i f) = ((i + 5) mod 5)%Z.
Proof.
  intros H. unfold focusAt.
  change (Z.of_nat (List.length focusables)) with 5%Z.
  rewrite Z.rem_mod_nonneg by lia.
  destruct (in_range_at_index ((i + 5) mod 5)) as [w ->].
  { unfold in_range. change (Z.of_nat (List.length focusables)) with 5%Z.
    apply Z.mod_pos_bound. lia. }
  unfold focus. destruct (is_textbox w); reflexivity.
Qed.

Lemma focusAt_in_range (i : Z) (f : Form) :
  in_range (focusIndex f) -> in_range (focusIndex (focusAt i f)).
Proof.
  intros H. unfold focusAt.
  destruct (at_index _) as [w|] eqn:E; [|exact H].
  apply at_index_in_range in E.
  unfold focus. destruct (is_textbox w); exact E.
Qed.

Lemma settle_focusIndex (handler : Form -> Form) (f : Form) :
  (forall g, focusIndex (handler g) = focusIndex g) ->
  focusIndex (settle handler f) = focusIndex f.
Proof.
  intros H. unfold settle. destruct (settled f); [reflexivity|].
  now rewrite H.
Qed.

Lemma resolve_focusIndex v g : focusIndex (resolve v g) = focusIndex g.
Proof. unfold resolve. cbn. now destruct (promise g). Qed.

Lemma reject_focusIndex e g : focusIndex (reject e g) = focusIndex g.
Proof. unfold reject. cbn. now destruct (promise g). Qed.

Lemma submit_in_range (f : Form) :
  in_range (focusIndex f) -> in_range (focusIndex (submit f)).
Proof.
  intros H. unfold submit.
  repeat match goal with
         | |- context [if ?b then _ else _] => destruct b
         end;
    try (apply focusAt_in_range; exact H).
  rewrite settle_focusIndex; [exact H | apply resolve_focusIndex].
Qed.

Lemma handle_in_range (e : Event) (f : Form) :
  in_range (focusIndex f) -> in_range (focusIndex (handle e f)).
Proof.
  intros H.
  destruct e as [[] | [] | [] | | w v]; cbn [handle];
    try exact H;
    try (now apply focusAt_in_range);
    try (now apply submit_in_range);
    try (unfold cancel; rewrite settle_focusIndex;
         [exact H | apply reject_focusIndex]).
  destruct w; exact H.
Qed.

Lemma focus_range_cases (i : Z) :
  in_range i -> i = 0%Z \/ i = 1%Z \/ i = 2%Z \/ i = 3%Z \/ i = 4%Z.
Proof. unfold in_range. cbn. lia. Qed.

Lemma start_in_range (cwd : string) (initial : PartialInputs) :
  in_range (focusIndex (collectInputsWithTui cwd initial)).
Proof.
  unfold collectInputsWithTui. apply focusAt_in_range.
  unfold in_range. cbn. lia.
Qed.

Lemma after_in_range (es : list Event) (f : Form) :
  in_range (focusIndex f) -> in_range (focusIndex (after es f)).
Proof.
  revert f; induction es as [|e es IH]; intros f H; [exact H|].
  apply IH. now apply handle_in_range.
Qed.

(** X10. In every form reached by events the focus index is the index of
    one of the five focusable widgets, whatever the listeners called: the
    index that [focusAt] stores is always one at which [focusables] has a
    widget. *)
Theorem focus_stays_in_range (cwd : string) (initial : PartialInputs)
    (es : list Event) :
  let f := after es (collectInputsWithTui cwd initial) in
  in_range (focusIndex f)
  /\ exists w, at_index (focusIndex f) = Some w.
Proof.
  intros f.
  assert (R : in_range (focusIndex f))
    by apply after_in_range, start_in_range.
  split; [exact R | now apply in_range_at_index].
Qed.

(** X11. The two focus listeners, [focusAt(focusIndex + 1)] bound to Tab
    and [focusAt(focusIndex - 1)] bound to Shift+Tab, undo each other on
    the focus index of every reachable form, wrapping between the last
    widget and the first; five calls of the first come back to the index
    they left. This is about calls of [focusAt]: blessed does not deliver
    a Tab typed in a textbox to the screen listener. *)
Theorem focus_steps_cycle (cwd : string) (initial : PartialInputs)
    (es : list Event) :
  let f := after es (collectInputsWithTui cwd initial) in
  let next := fun g => focusAt (focusIndex g + 1) g in
  let previous := fun g => focusAt (focusIndex g - 1) g in
  focusIndex (previous (next f)) = focusIndex f
  /\ focusIndex (next (previous f)) = focusIndex f
  /\ focusIndex (next (next (next (next (next f))))) = focusIndex f
  /\ (focusIndex f = 4%Z -> focusIndex (next f) = 0%Z)
  /\ (focusIndex f = 0%Z -> focusIndex (previous f) = 4%Z).
Proof.
  intros f next previous.
  pose proof (focus_range_cases (focusIndex f)
                (after_in_range es _ (start_in_range cwd initial))) as C.
  fold f in C. subst next previous. cbv beta.
  repeat split; try intros E;
    repeat (rewrite focusIndex_focusAt;
            [| destruct C as [C | [C | [C | [C | C]]]];
               rewrite ?C; cbn; lia]);
    destruct C as [C | [C | [C | [C | C]]]]; rewrite C; try reflexivity;
    congruence.
Qed.

(** *** The teardown of the screen *)

Lemma destroys_emit (e : Effect) (f : Form) :
  destroys (emit e f)
  = (destroys f + if is_destroy e then 1 else 0)%nat.
Proof.
  unfold destroys, emit. cbn [effects].
  rewrite filter_app, List.length_app. cbn [filter].
  now destruct (is_destroy e).
Qed.

Lemma focusAt_destroys (i : Z) (f : Form) :
  destroys (focusAt i f) = destroys f.
Proof.
  unfold focusAt. destruct (at_index _) as [w|]; [|reflexivity].
  unfold focus. destruct (is_textbox w);
    rewrite !destroys_emit; cbn [is_destroy]; unfold destroys; cbn; lia.
Qed.

Lemma setError_destroys (content : string) (f : Form) :
  destroys (setError content f) = destroys f.
Proof.
  unfold setError. rewrite !destroys_emit. cbn [is_destroy].
  unfold destroys. cbn. lia.
Qed.

Lemma resolve_destroys v g :
  destroys (resolve v g) = destroys g /\ settled (resolve v g) = settled g.
Proof.
  unfold resolve. cbn zeta. destruct (promise (emit (Resolve v) g));
    unfold set_promise, destroys; cbn [effects settled emit];
    rewrite filter_app, List.length_app; cbn; (split; [lia | reflexivity]).
Qed.

Lemma reject_destroys e g :
  destroys (reject e g) = destroys g /\ settled (reject e g) = settled g.
Proof.
  unfold reject. cbn zeta. destruct (promise (emit (Reject e) g));
    unfold set_promise, destroys; cbn [effects settled emit];
    rewrite filter_app, List.length_app; cbn; (split; [lia | reflexivity]).
Qed.

Lemma settle_torn_down (handler : Form -> Form) (f : Form) :
  (forall g, destroys (handler g) = destroys g /\
             settled (handler g) = settled g) ->
  torn_down_once f -> torn_down_once (settle handler f).
Proof.
  unfold torn_down_once, settle. intros H T.
  destruct (settled f) eqn:Hs; [now rewrite Hs|].
  destruct (H (cleanup (set_settled true f))) as [-> ->].
  unfold cleanup. rewrite destroys_emit. cbn [is_destroy settled emit set_settled].
  unfold destroys in *. cbn [effects set_settled]. lia.
Qed.

Lemma focusAt_torn_down (i : Z) (f : Form) :
  torn_down_once f -> torn_down_once (focusAt i f).
Proof.
  unfold torn_down_once. intros T. rewrite focusAt_destroys.
  destruct (focusAt_keeps i f) as [-> _]. exact T.
Qed.

Lemma setError_torn_down (content : string) (f : Form) :
  torn_down_once f -> torn_down_once (setError content f).
Proof.
  unfold torn_down_once. intros T. rewrite setError_destroys.
  destruct (setError_keeps content f) as [-> _]. exact T.
Qed.

Lemma submit_torn_down (f : Form) :
  torn_down_once f -> torn_down_once (submit f).
Proof.
  intros T. unfold submit.
  repeat match goal with
         | |- context [if ?b then _ else _] => destruct b
         end;
    try (now apply focusAt_torn_down, setError_torn_down).
  apply settle_torn_down; [apply resolve_destroys | exact T].
Qed.

Lemma handle_torn_down (e : Event) (f : Form) :
  torn_down_once f -> torn_down_once (handle e f).
Proof.
  intros T.
  destruct e as [[] | [] | [] | | w v]; cbn [handle];
    try exact T;
    try (now apply submit_torn_down);
    try (unfold cancel; apply settle_torn_down;
         [apply reject_destroys | exact T]);
    try (now apply focusAt_torn_down).
  destruct w; exact T.
Qed.

(** X12. The screen is destroyed exactly once, at the moment the promise
    settles: in every form reached by events, [screen.destroy()] was
    called once if the promise is settled and never if it is pending. *)
Theorem screen_destroyed_once (cwd : string) (initial : PartialInputs)
    (es : list Event) :
  let f := after es (collectInputsWithTui cwd initial) in
  (promise f = Pending -> destroys f = 0%nat)
  /\ (promise f <> Pending -> destroys f = 1%nat).
Proof.
  intros f.
  assert (T : torn_down_once f).
  { subst f.
    assert (T0 : torn_down_once (collectInputsWithTui cwd initial)).
    { unfold collectInputsWithTui. apply focusAt_torn_down. reflexivity. }
    revert T0. generalize (collectInputsWithTui cwd initial).
    induction es as [|e es IH]; intros g T; [exact T|].
    apply IH. now apply handle_torn_down. }
  pose proof (after_consistent es _ (start_consistent cwd initial))
    as (H0 & H1 & _).
  fold f in H0, H1. unfold torn_down_once in T.
  destruct (settled f).
  - destruct (H1 eq_refl) as [Hp _]. split; [intros E; contradiction | auto].
  - destruct (H0 eq_refl) as [Hp _]. split; [auto | intros N; contradiction].
Qed.

(** *** The message line *)

Lemma focusAt_message (i : Z) (f : Form) : message (focusAt i f) = message f.
Proof. now rewrite focusAt_fields. Qed.

Lemma settle_message (handler : Form -> Form) (f : Form) :
  (forall g, message (handler g) = message g) ->
  message (settle handler f) = message f.
Proof.
  intros H. unfold settle. destruct (settled f); [reflexivity|].
  now rewrite H.
Qed.

Lemma resolve_message v g : message (resolve v g) = message g.
Proof. unfold resolve. cbn. now destruct (promise g). Qed.

Lemma reject_message e g : message (reject e g) = message g.
Proof. unfold reject. cbn. now destruct (promise g). Qed.

Lemma submit_message (f : Form) :
  known_message (message f) -> known_message (message (submit f)).
Proof.
  intros K. unfold submit.
  repeat match goal with
         | |- context [if ?b then _ else _] => destruct b
         end;
    try (rewrite focusAt_message; unfold known_message; cbn; tauto).
  rewrite settle_message; [exact K | apply resolve_message].
Qed.

(** X13. The line under the form only ever shows the opening hint or one
    of the three errors of [submit]; apart from a refused [submit], no
    event changes it, so an error stays on the screen after the field is
    corrected, until the next [submit] is refused or the form closes. *)
Theorem message_line (cwd : string) (initial : PartialInputs)
    (es : list Event) (e : Event) :
  let f := after es (collectInputsWithTui cwd initial) in
  known_message (message f)
  /\ (message (handle e f) = message f \/
      (handle e f = submit f /\ promise (handle e f) = promise f /\
       settled (handle e f) = settled f)).
Proof.
  intros f. split.
  - subst f.
    assert (K0 : known_message (message (collectInputsWithTui cwd initial))).
    { unfold collectInputsWithTui. rewrite focusAt_message. now left. }
    revert K0. generalize (collectInputsWithTui cwd initial).
    induction es as [|e' es IH]; intros g K; [exact K|].
    apply IH.
    destruct e' as [[] | [] | [] | | w v]; cbn [handle];
      try exact K;
      try (now apply submit_message);
      try (now rewrite focusAt_message);
      try (unfold cancel; rewrite settle_message;
           [exact K | apply reject_message]).
    destruct w; exact K.
  - assert (S : message (submit f) = message f \/
                (promise (submit f) = promise f /\
                 settled (submit f) = settled f)).
    { unfold submit.
      repeat match goal with
             | |- context [if ?b then _ else _] => destruct b
             end;
        try (right;
             match goal with
             | |- context [focusAt ?i (setError ?c f)] =>
                 destruct (keeps_promise_trans _ _ _ (setError_keeps c f)
                             (focusAt_keeps i (setError c f)))
                   as (Hs & Hp & _)
             end; now split).
      left. rewrite settle_message; [reflexivity | apply resolve_message]. }
    destruct e as [[] | [] | [] | | w v]; cbn [handle];
      try (left; reflexivity);
      try (left; now rewrite focusAt_message);
      try (left; unfold cancel; rewrite settle_message;
           [reflexivity | apply reject_message]);
      try (destruct S as [S | S]; [now left | right; now split]).
    left. destruct w; reflexivity.
Qed.

(** *** Prefilled and typed values *)

Lemma focusAt_values (i : Z) (f : Form) :
  urlValue (focusAt i f) = urlValue f /\
  branchValue (focusAt i f) = branchValue f /\
  dirValue (focusAt i f) = dirValue f /\
  settled (focusAt i f) = settled f /\
  promise (focusAt i f) = promise f.
Proof. rewrite focusAt_fields. repeat split. Qed.

(** [submit] on a pending form whose three fields are not blank. *)
Lemma submit_filled (f : Form) :
  settled f = false -> promise f = Pending ->
  trim (urlValue f) <> "" -> trim (branchValue f) <> "" ->
  trim (dirValue f) <> "" ->
  let v := mkWorkspaceInputs (trim (urlValue f)) (trim (branchValue f))
             (trim (dirValue f)) in
  promise (submit f) = Fulfilled v /\
  effects (submit f) = (effects f ++ [Destroy; Resolve v])%list.
Proof.
  intros Hs Hp Hu Hb Hd v. unfold submit.
  apply is_empty_false in Hu, Hb, Hd. rewrite Hu, Hb, Hd.
  rewrite (resolve_unsettled _ f Hs Hp). now split.
Qed.

Lemma trim_not_blank (s : string) : trim s <> "" -> s <> "".
Proof. intros H ->. now apply H. Qed.

Lemma start_values (cwd : string) (initial : PartialInputs) :
  let f := collectInputsWithTui cwd initial in
  urlValue f = toInitialValue (initial_url initial) /\
  branchValue f = toInitialValue (initial_branch initial) /\
  dirValue f = toInitialValue (or_cwd (initial_dir initial) cwd) /\
  settled f = false /\ promise f = Pending.
Proof.
  cbv zeta. unfold collectInputsWithTui.
  destruct (focusAt_values 0
              (mkForm (toInitialValue (initial_url initial))
                 (toInitialValue (initial_branch initial))
                 (toInitialValue (or_cwd (initial_dir initial) cwd))
                 "{gray-fg}Tab/Shift+Tab switch focus · Enter submit · Esc cancel{/gray-fg}"
                 0 false Pending []))
    as (-> & -> & -> & -> & ->).
  repeat split.
Qed.

(** X14. A form opened with a url, a branch and a directory that are not
    blank, and submitted as it is, fulfils the promise with exactly their
    trimmed values, after destroying the screen. *)
Theorem prefilled_form_submits (cwd u b d : string) :
  trim u <> "" -> trim b <> "" -> trim d <> "" ->
  let f :=
    collectInputsWithTui cwd (mkPartialInputs (Some u) (Some b) (Some d)) in
  let v := mkWorkspaceInputs (trim u) (trim b) (trim d) in
  promise (submit f) = Fulfilled v /\
  effects (submit f) = (effects f ++ [Destroy; Resolve v])%list.
Proof.
  intros Hu Hb Hd f v.
  destruct (start_values cwd (mkPartialInputs (Some u) (Some b) (Some d)))
    as (Eu & Eb & Ed & Hs & Hp).
  fold f in Eu, Eb, Ed, Hs, Hp.
  cbn [initial_url initial_branch initial_dir toInitialValue] in Eu, Eb.
  assert (Ed' : dirValue f = trim d).
  { rewrite Ed. cbn [initial_dir]. unfold or_cwd.
    pose proof (trim_not_blank d Hd) as N. apply is_empty_false in N.
    now rewrite N. }
  assert (Tu : trim (urlValue f) = trim u) by (rewrite Eu; apply trim_idem).
  assert (Tb : trim (branchValue f) = trim b) by (rewrite Eb; apply trim_idem).
  assert (Td : trim (dirValue f) = trim d) by (rewrite Ed'; apply trim_idem).
  destruct (submit_filled f Hs Hp) as [P E]; try congruence.
  cbv zeta in P, E. rewrite Tu, Tb, Td in P, E. now split.
Qed.

Lemma prefilled_form_submits_witness :
  promise
    (submit
       (collectInputsWithTui "/work"
          (mkPartialInputs (Some " https://host/org/repo.git")
             (Some "main ") (Some " /T "))))
  = Fulfilled (mkWorkspaceInputs "https://host/org/repo.git" "main" "/T").
Proof.
  refine (proj1 (prefilled_form_submits "/work" " https://host/org/repo.git"
                   "main " " /T " _ _ _)); discriminate.
Defined.

(** X15. A missing or empty prefilled directory is replaced by the
    current directory, but one made of white space only is not: the form
    opens with an empty directory field, and submitting it as it is is
    refused with "Base directory is required." and the focus on that
    field. *)
Theorem blank_directory_prefill (cwd u b : string) (d : option string) :
  trim u <> "" -> trim b <> "" ->
  let f := collectInputsWithTui cwd (mkPartialInputs (Some u) (Some b) d) in
  (d = None \/ d = Some "" -> dirValue f = trim cwd)
  /\ (forall spaces,
        d = Some spaces -> spaces <> "" -> trim spaces = "" ->
        dirValue f = "" /\
        submit f = refused "Base directory is required." 2 dirInput f).
Proof.
  intros Hu Hb f.
  destruct (start_values cwd (mkPartialInputs (Some u) (Some b) d))
    as (Eu & Eb & Ed & Hs & Hp).
  fold f in Eu, Eb, Ed, Hs, Hp.
  cbn [initial_url initial_branch initial_dir toInitialValue] in Eu, Eb, Ed.
  split.
  - intros [-> | ->]; exact Ed.
  - intros spaces -> Hn Ht.
    assert (Ed' : dirValue f = "").
    { rewrite Ed. unfold or_cwd. apply is_empty_false in Hn.
      rewrite Hn. cbn [toInitialValue]. exact Ht. }
    split; [exact Ed'|].
    unfold submit. rewrite Eu, Eb, Ed', !trim_idem.
    apply is_empty_false in Hu, Hb. rewrite Hu, Hb.
    change (trim "") with "". cbn [is_empty].
    apply TuiSpec.refuse_dir.
Qed.

Lemma blank_directory_prefill_witness :
  dirValue
    (collectInputsWithTui "/work"
       (mkPartialInputs (Some "https://host/org/repo.git") (Some "main") None))
  = "/work"
  /\ message
       (submit
          (collectInputsWithTui "/work"
             (mkPartialInputs (Some "https://host/org/repo.git") (Some "main")
                (Some "   "))))
     = "{red-fg}Base directory is required.{/red-fg}".
Proof.
  assert (Nu : trim "https://host/org/repo.git" <> "") by discriminate.
  assert (Nb : trim "main" <> "") by discriminate.
  assert (Ns : "   " <> "") by discriminate.
  split.
  - apply (proj1 (blank_directory_prefill "/work"
                    "https://host/org/repo.git" "main" None Nu Nb)).
    now left.
  - destruct (proj2 (blank_directory_prefill "/work"
                       "https://host/org/repo.git" "main" (Some "   ") Nu Nb)
                "   " eq_refl Ns eq_refl) as [_ E].
    rewrite E. reflexivity.
Defined.



(** X17. Whatever the form resolves to is accepted as it is by
    [resolveInputs]: the url and the branch are present and not blank, and
    the three values come back unchanged, whatever the current directory
    is. *)
Theorem form_result_is_accepted (cwd : string) (initial : PartialInputs)
    (es : list Event) (process_cwd : string) (v : WorkspaceInputs) :
  promise (after es (collectInputsWithTui cwd initial)) = Fulfilled v ->
  Cli.resolveInputs process_cwd (Some (Tui.url v)) (Some (Tui.branch v))
    (Tui.dir v)
  = inr (as_arguments v).
Proof.
  intros H.
  pose proof (after_consistent es _ (start_consistent cwd initial))
    as (_ & _ & Hv).
  destruct (Hv v H) as ((Eu & Nu) & (Eb & Nb) & (Ed & Nd)).
  unfold Cli.resolveInputs, as_arguments.
  cbn [Cli.optional_trim Cli.falsy]. rewrite Eu, Eb, Ed.
  apply is_empty_false in Nu, Nb, Nd. now rewrite Nu, Nb, Nd.
Qed.

Lemma form_result_is_accepted_witness :
  Cli.resolveInputs "/elsewhere" (Some "https://host/org/repo.git")
    (Some "main") "/work"
  = inr (Cli.mkInputs "https://host/org/repo.git" "main" "/work").
Proof.
  exact (form_result_is_accepted "/work" (mkPartialInputs None None None)
           [Edit urlInput " https://host/org/repo.git ";
            Edit branchInput "main"; EnterIn dirInput]
           "/elsewhere"
           (mkWorkspaceInputs "https://host/org/repo.git" "main" "/work")
           eq_refl).
Defined.

End TuiMore.
